(** * Fair Isolation tournaments: match generation and aggregation

    A shallow embedding of [tournament_helpers.py] and [tournament_fair.py].
    The functions of the two files are written in a state-and-exception
    monad over the interpreter's global state (the [random] module's
    generator and the text printed so far); dictionaries of type [Counter]
    are finite maps. *)

From Stdlib Require Import QArith.
From stdpp Require Import base gmap list strings fin_maps pretty.

Local Open Scope nat_scope.

(** ** Exceptions and results *)

Inductive Exn : Type :=
| IndexError           (* random.choice on an empty sequence *)
| IllegalMove          (* the Board refuses a move *)
| AssertionError       (* a failed [assert] *)
| ZeroDivisionError    (* [/] by zero *)
| PlayError (tag : string). (* anything the game-playing code raises *)

Inductive Res (A : Type) : Type :=
| Ok (a : A)
| Raise (e : Exn).
Arguments Ok {A} a.
Arguments Raise {A} e.

(** ** The random module

    The generator is a tape of draws and a read position;
    [random.choice(seq)] reads one draw. *)

Record Rng : Type := mkRng { tape : nat → nat; pos : nat }.

Definition draw (r : Rng) : nat * Rng :=
  (tape r (pos r), mkRng (tape r) (S (pos r))).

(** ** The Board of the [isolation] module *)

Definition Move : Type := nat * nat.   (* (row, column) *)

(** Modelled from the spec: the class [Board] of the module [isolation],
    which the helpers import and which is not among the source files.  A
    GameInstance is a board state bound to two players, one active (to
    move) and one inactive; it exposes legal-move enumeration, move
    application (an illegal move is an error), the blank cells and the
    two players. *)
Record Board (P : Type) : Type := mkBoard {
  width : nat;
  height : nat;
  active_player : P;
  inactive_player : P;
  occupied : list Move;            (* the moves applied, latest first *)
  active_loc : option Move;        (* last move of the active player *)
  inactive_loc : option Move       (* last move of the inactive player *)
}.
Arguments mkBoard {P}.
Arguments width {P}.
Arguments height {P}.
Arguments active_player {P}.
Arguments inactive_player {P}.
Arguments occupied {P}.
Arguments active_loc {P}.
Arguments inactive_loc {P}.

(** [Board(player_1, player_2, width, height)] *)
Definition new_board {P} (player_1 player_2 : P) (w h : nat) : Board P :=
  mkBoard w h player_1 player_2 [] None None.

Definition cells (w h : nat) : list Move :=
  j ← seq 0 w; i ← seq 0 h; [(i, j)].

Definition get_blank_spaces {P} (b : Board P) : list Move :=
  filter (λ m, m ∉ occupied b) (cells (width b) (height b)).

(** What a game returns: [(winner, loser, loss_reason)]. *)
Record Outcome (P : Type) : Type := mkOutcome {
  winner : P;
  loser : P;
  loss_reason : string
}.
Arguments mkOutcome {P}.
Arguments winner {P}.
Arguments loser {P}.
Arguments loss_reason {P}.

(** ** The collaborators outside this code

    [reach] is the movement rule of the game (where a piece standing on a
    cell may go); [play] is [Board.play], which runs a game to its end and
    may use the random generator or raise. *)
Class Collaborators (P : Type) : Type := {
  reach : Move → list Move;
  play : Board P → Rng → Res (Outcome P) * Rng
}.

(** An instance to run the definitions on: the L-shaped move of
    Isolation, and a game that the player to move always wins. *)
Definition knight_reach (m : Move) : list Move :=
  '(dr, dc) ← [(-2, -1); (-2, 1); (-1, -2); (-1, 2);
               (1, -2); (1, 2); (2, -1); (2, 1)]%Z;
  let r := (Z.of_nat m.1 + dr)%Z in
  let c := (Z.of_nat m.2 + dc)%Z in
  if decide (0 ≤ r ∧ 0 ≤ c)%Z then [(Z.to_nat r, Z.to_nat c)] else [].

Definition active_wins {P} (b : Board P) (r : Rng) : Res (Outcome P) * Rng :=
  (Ok (mkOutcome (active_player b) (inactive_player b) "timeout"%string), r).

Definition demo_game : Collaborators nat :=
  {| reach := knight_reach; play := active_wins |}.

(** A game that raises when one of its two players is [bad]. *)
Definition fails_for (bad : nat) (b : Board nat) (r : Rng)
  : Res (Outcome nat) * Rng :=
  if decide (active_player b = bad ∨ inactive_player b = bad)
  then (Raise (PlayError "search"%string), r)
  else active_wins b r.

Definition faulty_game (bad : nat) : Collaborators nat :=
  {| reach := knight_reach; play := fails_for bad |}.

(** A game that always raises [e]. *)
Definition raising_game (e : Exn) : Collaborators nat :=
  {| reach := knight_reach; play := λ _ r, (Raise e, r) |}.

Definition demo_rng : Rng := mkRng (λ n, 11 * n + 5) 0.

(** ** Text written to standard output

    One constructor per [format_*] helper; the layout of the text is left
    out, the data put into it is kept. *)
Inductive Line : Type :=
| Header (names : list string)
| RowLabel (idx : nat) (name : string)
| RowResults (cells : list (nat * Z))       (* won | lost, per test agent *)
| DividingLine (w : nat)
| WinRates (rates : list Q)
| LossResults (timeouts forfeits : option nat).

(** ** Counters *)

(** [c[k] += 1] *)
Definition incr `{Countable K} (k : K) (c : gmap K nat) : gmap K nat :=
  <[k := S (c !!! k)]> c.

(** [c.update(other)]: counts add. *)
Definition update `{Countable K} (c other : gmap K nat) : gmap K nat :=
  union_with (λ a b, Some (a + b)) c other.

(** [sum(c.values())] *)
Definition total `{Countable K} (c : gmap K nat) : nat :=
  map_fold (λ _ v acc, v + acc) 0 c.

Record Agent (P : Type) : Type := mkAgent { player : P; name : string }.
Arguments mkAgent {P}.
Arguments player {P}.
Arguments name {P}.

(** ** The text of the table

    The [format_*] helpers of tournament_helpers.py as the strings they
    build, and the row label that [run_fair_tournament] prints before a
    round.  [pretty] is [str] on integers.  The win rates, formatted from
    floating-point numbers, are left out. *)
Module Text.

#[local] Open Scope string_scope.

(** The newline character, as a string. *)
Definition nl : string := String (Ascii.ascii_of_nat 10) "".

(** [s * n] *)
Fixpoint times (s : string) (n : nat) : string :=
  match n with
  | 0 => ""
  | S n' => s +:+ times s n'
  end.

(** ['{:^w}'.format(s)]: centred in [w] columns, the odd space on the
    right; a longer [s] is left as it is. *)
Definition center (w : nat) (s : string) : string :=
  let pad := w - String.length s in
  let left := pad / 2 in
  times " " left +:+ s +:+ times " " (pad - left).

Definition DESCRIPTION : string :=
  nl +:+
  "This script evaluates the performance of the custom_score evaluation"
  +:+ nl +:+
  "function against a baseline agent using alpha-beta search and iterative"
  +:+ nl +:+
  "deepening (ID) called `AB_Improved`. The three `AB_Custom` agents use"
  +:+ nl +:+
  "ID and alpha-beta search with the custom_score functions defined in"
  +:+ nl +:+
  "game_agent.py." +:+ nl.

(** A template with one field: the text before and after it. *)
Definition TIMEOUT_TEMPLATE : string * string :=
  (nl +:+ "There were ",
   " timeout(s) during the tournament -- make sure" +:+ nl +:+
   "your agent handles search timeout correctly, and consider" +:+ nl +:+
   "increasing the timeout margin for your agent." +:+ nl).

Definition FORFEIT_TEMPLATE : string * string :=
  (nl +:+ "Your ID search forfeited ",
   " game(s) while there were still legal" +:+ nl +:+
   "moves available to play." +:+ nl).

(** [template.format(x)] *)
Definition format1 (template : string * string) (x : string) : string :=
  template.1 +:+ x +:+ template.2.

(** The list [lines] of [format_header], before it is joined. *)
Definition header_lines {P} (test_agents : list (Agent P)) : list string :=
  let lines := [DESCRIPTION] in
  let lines := (lines ++ [center 74 "*************************"])%list in
  let lines := (lines ++ [center 74 "Playing Matches"])%list in
  let lines := (lines ++ [center 74 "*************************"])%list in
  let lines := (lines ++
    [(nl +:+ center 9 "Match #" +:+ center 13 "Opponent") +:+
     String.concat "" ((λ x, center 13 (name x)) <$> test_agents)])%list in
  let lines := (lines ++
    [(center 9 "" +:+ center 13 "" +:+ " ") +:+
     String.concat " "
       ((λ _, center 5 "Won" +:+ "| " +:+ center 5 "Lost")
          <$> test_agents)])%list in
  lines.

Definition format_header {P} (test_agents : list (Agent P)) : string :=
  String.concat nl (header_lines test_agents).

Definition format_row_results `{Countable P} (test_agents : list (Agent P))
    (win_counts : gmap P nat) (num_games_each : nat) : string :=
  let results := (λ agent,
    let num_wins := win_counts !!! player agent in
    let num_losses := (Z.of_nat num_games_each - Z.of_nat num_wins)%Z in
    center 5 (pretty num_wins) +:+ "| " +:+ center 5 (pretty num_losses))
    <$> test_agents in
  " " +:+ String.concat " " results.

Definition format_loss_results (reasons : gmap string nat) : string :=
  let results := [] in
  let results :=
    if decide (is_Some (reasons !! "timeout"))
    then (results ++
          [format1 TIMEOUT_TEMPLATE (pretty (reasons !!! "timeout"))])%list
    else results in
  let results :=
    if decide (is_Some (reasons !! "forfeit"))
    then (results ++
          [format1 FORFEIT_TEMPLATE (pretty (reasons !!! "forfeit"))])%list
    else results in
  String.concat nl results.

Definition make_dividing_line {P} (test_agents : list (Agent P)) : string :=
  let width := 9 + 13 + 13 * length test_agents in
  times "-" width.

(** ["{!s:^9}{:^13}".format(idx + 1, cpu_agent.name)], printed without a
    newline before the round is played. *)
Definition row_label {P} (idx : nat) (cpu_agent : Agent P) : string :=
  center 9 (pretty (idx + 1)) +:+ center 13 (name cpu_agent).

End Text.

(** ** The interpreter state

    [played] is the record of the games handed to [play] and of what each
    returned; the code does not read it. *)
Record World (P : Type) : Type := mkWorld {
  rng : Rng;
  stdout : list Line;
  played : list (Board P * Res (Outcome P))
}.
Arguments mkWorld {P}.
Arguments rng {P}.
Arguments stdout {P}.
Arguments played {P}.

(** ** Inputs to run the definitions on *)

Definition demo_world : World nat := mkWorld demo_rng [] [].

Definition anchor_x : Agent nat := mkAgent 10 "x"%string.
Definition anchor_y : Agent nat := mkAgent 11 "y"%string.
Definition test_a : Agent nat := mkAgent 1 "a"%string.
Definition test_b : Agent nat := mkAgent 2 "b"%string.
Definition test_c : Agent nat := mkAgent 3 "c"%string.

Section Tournament.
Context {P : Type} `{Countable P} `{!Collaborators P}.

(** ** The Board's operations *)

(** Modelled from the spec: [Board.get_legal_moves] and [Board.apply_move]
    of the module [isolation], which is not among the source files.  The
    spec has the sampler enumerate the currently legal moves and apply the
    one picked, the board toggling the active and the inactive player;
    it calls the occupied cells illegal, and it names an illegal-move error
    of the board, which the builder lets through.  It does not say which
    moves the board refuses: here the legal moves are the blank cells
    before a player's first move and the blank cells in [reach] of its
    piece afterwards, and [apply_move] raises IllegalMove on every other
    move.  No theorem of this file rests on a refusal: [apply_move] is
    reasoned about on legal moves -- the two different cells of a supplied
    opening, the cells the sampler drew -- and on calls that return. *)
Definition get_legal_moves {Q} (b : Board Q) : list Move :=
  match active_loc b with
  | None => get_blank_spaces b
  | Some loc => filter (λ m, m ∈ get_blank_spaces b) (reach loc)
  end.

(** Modelled from the spec: move application, an illegal move being an
    error (see above for which moves are taken as illegal). *)
Definition apply_move {Q} (b : Board Q) (m : Move) : Res (Board Q) :=
  if decide (m ∈ get_legal_moves b) then
    Ok (mkBoard (width b) (height b) (inactive_player b) (active_player b)
          (m :: occupied b) (inactive_loc b) (Some m))
  else Raise IllegalMove.

(** ** The monad *)

Definition M (A : Type) : Type := World P → Res A * World P.

#[local] Instance M_ret : MRet M := λ A a w, (Ok a, w).
#[local] Instance M_bind : MBind M := λ A B f m w,
  match m w with
  | (Ok a, w') => f a w'
  | (Raise e, w') => (Raise e, w')
  end.

Definition raise {A} (e : Exn) : M A := λ w, (Raise e, w).

Definition lift {A} (r : Res A) : M A := λ w, (r, w).

Definition assert (c : bool) : M unit :=
  if c then mret tt else raise AssertionError.

Definition print (l : Line) : M unit :=
  λ w, (Ok tt, mkWorld (rng w) (stdout w ++ [l]) (played w)).

(** [random.choice(seq)] *)
Definition choice {A} (l : list A) : M A := λ w,
  let '(n, r) := draw (rng w) in
  match l !! (n mod length l) with
  | Some x => (Ok x, mkWorld r (stdout w) (played w))
  | None => (Raise IndexError, w)
  end.

(** [game.play()] *)
Definition call_play (game : Board P) : M (Outcome P) := λ w,
  let '(res, r) := play game (rng w) in
  (res, mkWorld r (stdout w) (played w ++ [(game, res)])).

(** [for x in l: s = body(s, x)] *)
Fixpoint for_each {A S} (l : list A) (body : S → A → M S) (s : S) : M S :=
  match l with
  | [] => mret s
  | x :: l' => s' ← body s x; for_each l' body s'
  end.

(** ** tournament_helpers.py *)

Definition get_random_starting_positions (h w : nat) : M (list Move) :=
  let b := new_board ""%string ""%string w h in
  '(_, moves) ← for_each (seq 0 2) (λ '(b, moves) _,
      move ← choice (get_legal_moves b);
      b' ← lift (apply_move b move);
      mret (b', moves ++ [move])) (b, []);
  mret moves.

(** [not opening_moves] *)
Definition falsy {A} (o : option (list A)) : bool :=
  match o with
  | None | Some [] => true
  | Some (_ :: _) => false
  end.

Definition prepare_fair_match (player1 player2 : P)
    (opening_moves : option (list Move)) (w h : nat)
  : M (list (Board P) * list Move) :=
  let boards := [new_board player1 player2 w h;
                 new_board player2 player1 w h] in
  opening_moves ←
    (if falsy opening_moves then
       match boards !! 0 with
       | Some b => get_random_starting_positions (height b) (width b)
       | None => raise IndexError
       end
     else mret (default [] opening_moves));
  boards ← for_each opening_moves (λ boards move,
      mapM (λ board, lift (apply_move board move)) boards) boards;
  mret (boards, opening_moves).

(** A generator is the list of its pending steps, each run up to its
    [yield]; the code before the loop runs when the generator is first
    advanced, which both callers do at once. *)
Definition prepare_same_fair_matches (agent : Agent P)
    (opponents : list (Agent P)) (num_matches : nat)
  : M (list (M (list (Board P)))) :=
  same_opening_moves ←
    mapM (λ _, get_random_starting_positions 7 7) (seq 0 num_matches);
  mret ((λ opponent,
    games ← for_each same_opening_moves (λ games opening_moves,
        '(boards, _) ← prepare_fair_match (player agent) (player opponent)
                          (Some opening_moves) 7 7;
        mret (games ++ boards)) [];
    assert (length games =? 2 * num_matches);;
    mret games) <$> opponents).

(** [for x in gen: s = body(s, x)] *)
Definition for_gen {A S} (gen : list (M A)) (body : S → A → M S) (s : S)
  : M S :=
  for_each gen (λ s next, x ← next; body s x) s.

(** The test's loop, which appends every yielded list to [game_sequences]. *)
Definition game_sequences (agent : Agent P) (opponents : list (Agent P))
    (num_matches : nat) : M (list (list (Board P))) :=
  gen ← prepare_same_fair_matches agent opponents num_matches;
  for_gen gen (λ seqs games, mret (seqs ++ [games])) [].

Definition format_header (test_agents : list (Agent P)) : Line :=
  Header (name <$> test_agents).

Definition format_row_results (test_agents : list (Agent P))
    (win_counts : gmap P nat) (num_games_each : nat) : Line :=
  RowResults ((λ agent,
    let num_wins := win_counts !!! player agent in
    let num_losses := (Z.of_nat num_games_each - Z.of_nat num_wins)%Z in
    (num_wins, num_losses)) <$> test_agents).

Definition format_loss_results (reasons : gmap string nat) : Line :=
  LossResults (reasons !! "timeout"%string) (reasons !! "forfeit"%string).

Definition format_win_rates (test_agents : list (Agent P))
    (all_test_agent_wins : gmap P nat) (total_num_games : nat) : M Line :=
  data ← for_each test_agents (λ data agent,
      let num_wins := all_test_agent_wins !!! player agent in
      if decide (total_num_games = 0) then raise ZeroDivisionError
      else mret (data ++ [Z.of_nat num_wins # Pos.of_nat total_num_games]))
    [];
  mret (WinRates data).

Definition make_dividing_line (test_agents : list (Agent P)) : Line :=
  DividingLine (9 + 13 + 13 * length test_agents).

(** ** tournament_fair.py *)

(** The body of the loop over the games. *)
Definition tally (counts : gmap P nat * gmap string nat) (game : Board P)
  : M (gmap P nat * gmap string nat) :=
  let '(win_counts, loss_reason_counts) := counts in
  o ← call_play game;
  mret (incr (winner o) win_counts,
        incr (loss_reason o) loss_reason_counts).

Definition play_fair_round (cpu_agent : Agent P)
    (test_agents : list (Agent P)) (num_matches : nat)
  : M (gmap P nat * gmap string nat) :=
  gen ← prepare_same_fair_matches cpu_agent test_agents num_matches;
  '(win_counts, loss_reason_counts) ← for_gen gen (λ counts games,
      for_each games tally counts) (∅, ∅);
  assert (total win_counts =? 2 * num_matches * length test_agents);;
  mret (win_counts, loss_reason_counts).

(** The body of the loop over the rounds.  [del] on a [Counter] does not
    raise when the key is missing, as [delete] here. *)
Definition fair_round_row (test_agents : list (Agent P)) (num_matches : nat)
    (all : gmap P nat * gmap string nat) (row : nat * Agent P)
  : M (gmap P nat * gmap string nat) :=
  let '(all_test_agent_wins, all_loss_reasons) := all in
  let '(idx, cpu_agent) := row in
  print (RowLabel (idx + 1) (name cpu_agent));;
  '(win_counts, loss_reasons) ←
    play_fair_round cpu_agent test_agents num_matches;
  let num_games_each := 2 * num_matches in
  print (format_row_results test_agents win_counts num_games_each);;
  let all_loss_reasons := update all_loss_reasons loss_reasons in
  let win_counts := delete (player cpu_agent) win_counts in
  let all_test_agent_wins := update all_test_agent_wins win_counts in
  mret (all_test_agent_wins, all_loss_reasons).

Definition run_fair_tournament (cpu_agents test_agents : list (Agent P))
    (num_matches : nat) : M (gmap P nat * gmap string nat) :=
  print (format_header test_agents);;
  '(all_test_agent_wins, all_loss_reasons) ←
    for_each (imap pair cpu_agents) (fair_round_row test_agents num_matches)
      (∅, ∅);
  print (make_dividing_line test_agents);;
  let total_num_games_per_test_agent :=
    2 * num_matches * length cpu_agents in
  assert (size all_test_agent_wins =? length test_agents);;
  assert (total all_test_agent_wins <=?
          total_num_games_per_test_agent * length test_agents);;
  rates ← format_win_rates test_agents all_test_agent_wins
            total_num_games_per_test_agent;
  print rates;;
  print (format_loss_results all_loss_reasons);;
  mret (all_test_agent_wins, all_loss_reasons).

(** ** Notions used in the statements *)

(** A move placed without asking whether it is legal. *)
Definition place {Q} (b : Board Q) (m : Move) : Board Q :=
  mkBoard (width b) (height b) (inactive_player b) (active_player b)
    (m :: occupied b) (inactive_loc b) (Some m).

Definition after_opening {Q} (b : Board Q) (om : list Move) : Board Q :=
  foldl place b om.

(** The two games of a fair match on [w] x [h]. *)
Definition fair_pair (p1 p2 : P) (w h : nat) (om : list Move)
  : list (Board P) :=
  [after_opening (new_board p1 p2 w h) om;
   after_opening (new_board p2 p1 w h) om].

(** Two different cells of the [w] x [h] board. *)
Definition legal_opening (w h : nat) (om : list Move) : bool :=
  match om with
  | [m1; m2] => bool_decide (m1 ∈ cells w h ∧ m2 ∈ cells w h ∧ m1 ≠ m2)
  | _ => false
  end.

(** The unordered pair of the players of a game. *)
Definition pair_ids (g : Board P) : gset P :=
  {[active_player g; inactive_player g]}.

(** The moves a game was opened with, in the order played. *)
Definition opening_of {Q} (g : Board Q) : list Move := reverse (occupied g).

(** The games of one opponent, given the openings of the round. *)
Definition schedule (agent opponent : Agent P) (oms : list (list Move))
  : list (Board P) :=
  om ← oms; fair_pair (player agent) (player opponent) 7 7 om.

(** The shared-opening invariant of [k] sequences of [2 * n] games. *)
Definition shared_opening_invariant (seqs : list (list (Board P)))
    (k n : nat) : Prop :=
  length seqs = k ∧
  Forall (λ s, length s = 2 * n) seqs ∧
  ∀ i a b sa sb ga gb,
    seqs !! a = Some sa → seqs !! b = Some sb →
    sa !! i = Some ga → sb !! i = Some gb →
    get_blank_spaces ga = get_blank_spaces gb ∧
    (a ≠ b → pair_ids ga ≠ pair_ids gb).

(** The games won by [p] among the games played. *)
Fixpoint won_by (p : P) (log : list (Board P * Res (Outcome P))) : nat :=
  match log with
  | [] => 0
  | (_, Ok o) :: log' =>
      (if decide (winner o = p) then 1 else 0) + won_by p log'
  | (_, Raise _) :: log' => won_by p log'
  end.

(** A counter holds positive counts only. *)
Definition count_entry (n : nat) : option nat :=
  match n with 0 => None | S _ => Some n end.

(** No game of the record raised. *)
Definition clean (log : list (Board P * Res (Outcome P))) : Prop :=
  Forall (λ x, ∃ o, x.2 = Ok o) log.

(** Every entry of the record is what [play] returns on that game. *)
Definition genuine (log : list (Board P * Res (Outcome P))) : Prop :=
  Forall (λ x, ∃ r r', play x.1 r = (x.2, r')) log.

(** The games of a round, in the order played. *)
Definition round_games (agent : Agent P) (opponents : list (Agent P))
    (oms : list (list Move)) : list (Board P) :=
  opp ← opponents; schedule agent opp oms.

(** What the games loop has done since [w0]: it played the games [gs], none
    raised, nothing was printed, and the win counter holds the wins. *)
Definition tallied (w0 : World P) (gs : list (Board P))
    (counts : gmap P nat * gmap string nat) (w : World P) : Prop :=
  ∃ new, played w = played w0 ++ new ∧ stdout w = stdout w0 ∧
         new.*1 = gs ∧ clean new ∧ genuine new ∧
         (∀ p, counts.1 !! p = count_entry (won_by p new)) ∧
         total counts.1 = length gs.

(** [play] never raises. *)
Definition play_total : Prop :=
  ∀ g r, ∃ o r', play g r = (Ok o, r').

(** The winner [play] reports is one of the two players of the game. *)
Definition play_contract : Prop :=
  ∀ g r o r', play g r = (Ok o, r') →
              winner o = active_player g ∨ winner o = inactive_player g.

(** A round that has been played: its row number and anchor, the win
    counter [play_fair_round] returned and the record of its games. *)
Record Round : Type := mkRound {
  r_idx : nat;
  r_cpu : Agent P;
  r_wins : gmap P nat;
  r_log : list (Board P * Res (Outcome P))
}.

Definition round_record (test_agents : list (Agent P)) (n : nat)
    (r : Round) : Prop :=
  ∃ oms, length oms = n ∧ Forall (λ om, legal_opening 7 7 om = true) oms ∧
         (r_log r).*1 = round_games (r_cpu r) test_agents oms ∧
         clean (r_log r) ∧ genuine (r_log r) ∧
         ∀ p, r_wins r !! p = count_entry (won_by p (r_log r)).

(** The two lines a round prints. *)
Definition round_lines (test_agents : list (Agent P)) (n : nat) (r : Round)
  : list Line :=
  [RowLabel (r_idx r + 1) (name (r_cpu r));
   format_row_results test_agents (r_wins r) (2 * n)].

(** What a round adds to the tournament-wide count of [p]. *)
Definition credit (p : P) (r : Round) : nat :=
  if decide (p = player (r_cpu r)) then 0 else r_wins r !!! p.

(** The state of the loop over the rounds after the rows [pre]. *)
Definition rows_done (test_agents : list (Agent P)) (n : nat) (w0 : World P)
    (pre : list (nat * Agent P)) (all : gmap P nat * gmap string nat)
    (w : World P) : Prop :=
  ∃ hist : list Round,
    (λ r, (r_idx r, r_cpu r)) <$> hist = pre ∧
    Forall (round_record test_agents n) hist ∧
    played w = played w0 ++ (hist ≫= r_log) ∧
    stdout w = stdout w0 ++ (hist ≫= round_lines test_agents n) ∧
    ∀ p, all.1 !! p = count_entry (sum_list_with (credit p) hist).

(** Lines of the table body. *)
Definition row_line (l : Line) : bool :=
  match l with RowLabel _ _ | RowResults _ => true | _ => false end.

(** Lines that report win counts or loss reasons. *)
Definition reports_counts (l : Line) : bool :=
  match l with
  | RowResults _ | WinRates _ | LossResults _ _ => true
  | _ => false
  end.

(** What was played and printed between two states. *)
Definition played_since (w w' : World P) : list (Board P * Res (Outcome P)) :=
  drop (length (played w)) (played w').

Definition printed_since (w w' : World P) : list Line :=
  drop (length (stdout w)) (stdout w').

(** The end of [run_fair_tournament], after the loop over the rounds. *)
Definition summary (cpu_agents test_agents : list (Agent P)) (n : nat)
    (all : gmap P nat * gmap string nat)
  : M (gmap P nat * gmap string nat) :=
  let '(all_test_agent_wins, all_loss_reasons) := all in
  print (make_dividing_line test_agents);;
  let total_num_games_per_test_agent := 2 * n * length cpu_agents in
  assert (size all_test_agent_wins =? length test_agents);;
  assert (total all_test_agent_wins <=?
          total_num_games_per_test_agent * length test_agents);;
  rates ← format_win_rates test_agents all_test_agent_wins
            total_num_games_per_test_agent;
  print rates;;
  print (format_loss_results all_loss_reasons);;
  mret (all_test_agent_wins, all_loss_reasons).

(** The win rates of the last table row. *)
Definition win_rates (test_agents : list (Agent P)) (wins : gmap P nat)
    (games : nat) : list Q :=
  (λ t, Z.of_nat (wins !!! player t) # Pos.of_nat games) <$> test_agents.

(** The world once a line is printed. *)
Definition with_line (l : Line) (w : World P) : World P :=
  mkWorld (rng w) (stdout w ++ [l]) (played w).

(** The rows of results among printed lines. *)
Definition row_results (out : list Line) : list (list (nat * Z)) :=
  omap (λ l, match l with RowResults cells => Some cells | _ => None end) out.

(** Code that leaves the interpreter state alone. *)
Definition stateless {A} (m : M A) : Prop := ∀ w, (m w).2 = w.

(** The loop of [prepare_fair_match] over the opening moves. *)
Definition apply_opening (om : list Move) (boards : list (Board P))
  : M (list (Board P)) :=
  for_each om (λ boards move,
    mapM (λ board, lift (apply_move board move)) boards) boards.

(** The games lost for [reason] among the games played. *)
Fixpoint lost_for (reason : string)
    (log : list (Board P * Res (Outcome P))) : nat :=
  match log with
  | [] => 0
  | (_, Ok o) :: log' =>
      (if decide (loss_reason o = reason) then 1 else 0) + lost_for reason log'
  | (_, Raise _) :: log' => lost_for reason log'
  end.

(** ** tournament_fair_test.py

    [assertTrue] and [assertFalse] raise AssertionError; [l[i]] raises
    IndexError out of range.  The strings "Player1" and "Player2" of the
    first test and the fixture of [setUp] are parameters.  The test
    unpacks [boards] into two names, a ValueError when [boards] has not
    two elements, written here as a PlayError with that tag. *)
Definition assertTrue (c : bool) : M unit := assert c.

Definition assertFalse (c : bool) : M unit := assert (negb c).

Definition index {A} (l : list A) (i : nat) : M A :=
  match l !! i with
  | Some x => mret x
  | None => raise IndexError
  end.

Definition test_prepare_fair_match (Player1 Player2 : P) : M unit :=
  '(boards, _) ← prepare_fair_match Player1 Player2 None 7 7;
  match boards with
  | [board1; board2] =>
      assertTrue (bool_decide (get_blank_spaces board1
                               = get_blank_spaces board2));;
      assertTrue (bool_decide (active_player board1
                               = inactive_player board2));;
      assertTrue (bool_decide (inactive_player board1
                               = active_player board2));;
      assertTrue (bool_decide (active_player board1 = Player1));;
      assertTrue (bool_decide (active_player board2 = Player2))
  | _ => raise (PlayError "ValueError")
  end.

Definition test_prepare_same_fair_matches (test_agents : list (Agent P))
    (cpu_agent : Agent P) : M unit :=
  let num_matches := 5 in
  game_sequences ← game_sequences cpu_agent test_agents num_matches;
  assertTrue (length game_sequences =? length test_agents);;
  first ← index game_sequences 0;
  assertTrue (length first =? 2 * num_matches);;
  first ← index game_sequences 0;
  for_each (seq 0 (length first)) (λ _ game_idx,
    first ← index game_sequences 0;
    game1 ← index first game_idx;
    for_each (drop 1 game_sequences) (λ _ game_seq,
      game2 ← index game_seq game_idx;
      assertTrue (bool_decide (get_blank_spaces game1
                               = get_blank_spaces game2));;
      assertFalse (bool_decide (pair_ids game1 = pair_ids game2))) tt) tt.

(** The world after [n] draws. *)
Definition drawn (n : nat) (w : World P) : World P :=
  mkWorld (mkRng (tape (rng w)) (n + pos (rng w))) (stdout w) (played w).

(** ** Laws of the monad *)

Lemma bind_ok {A B} (m : M A) (f : A → M B) w a w' :
  m w = (Ok a, w') → (m ≫= f) w = f a w'.
Proof. unfold mbind, M_bind. by intros ->. Qed.

Lemma bind_inv {A B} (m : M A) (f : A → M B) w b w' :
  (m ≫= f) w = (Ok b, w') → ∃ a w1, m w = (Ok a, w1) ∧ f a w1 = (Ok b, w').
Proof.
  unfold mbind, M_bind. destruct (m w) as [[a|e] w1]; [eauto | done].
Qed.

Lemma bind_ext {A B} (m1 m2 : M A) (k1 k2 : A → M B) w :
  m1 w = m2 w → (∀ a w, k1 a w = k2 a w) → (m1 ≫= k1) w = (m2 ≫= k2) w.
Proof.
  unfold mbind, M_bind. intros -> Hk. by destruct (m2 w) as [[a|e] w1].
Qed.

Lemma for_each_app {A S} (l1 l2 : list A) (body : S → A → M S) s w :
  for_each (l1 ++ l2) body s w
  = (for_each l1 body s ≫= for_each l2 body) w.
Proof.
  revert s w. induction l1 as [|x l1 IH]; intros s w; [done|].
  simpl. unfold mbind, M_bind in *.
  destruct (body s x w) as [[s'|e] w1]; [apply IH | done].
Qed.

(** ** The board *)

Lemma elem_of_cells w h i j : (i, j) ∈ cells w h ↔ i < h ∧ j < w.
Proof.
  unfold cells. rewrite list_elem_of_bind. split.
  - intros (j' & Hin & Hj). apply list_elem_of_bind in Hin as (i' & Hin & Hi).
    apply list_elem_of_singleton in Hin. injection Hin as -> ->.
    apply elem_of_seq in Hj, Hi. lia.
  - intros [Hi Hj]. exists j. split; [|apply elem_of_seq; lia].
    apply list_elem_of_bind. exists i. split; [by apply list_elem_of_singleton|].
    apply elem_of_seq. lia.
Qed.

Lemma apply_move_legal {Q} (b : Board Q) m :
  m ∈ get_legal_moves b → apply_move b m = Ok (place b m).
Proof. intros Hm. unfold apply_move. by rewrite decide_True. Qed.

Lemma choice_ok {A} (l : list A) w :
  l ≠ [] → ∃ x, x ∈ l ∧ choice l w = (Ok x, drawn 1 w).
Proof.
  intros Hl. unfold choice, draw.
  assert (Hlt : tape (rng w) (pos (rng w)) mod length l < length l).
  { apply Nat.mod_upper_bound. by destruct l. }
  apply lookup_lt_is_Some in Hlt as [x Hx]. rewrite Hx.
  exists x. split; [by eapply list_elem_of_lookup_2 | done].
Qed.

Lemma two_cells w h m :
  2 ≤ h * w → ∃ m', m' ∈ cells w h ∧ m' ≠ m.
Proof.
  intros Hwh.
  destruct (decide (m = (0, 0))) as [->|Hne].
  - destruct (decide (2 ≤ h)).
    + exists (1, 0). split; [apply elem_of_cells; nia | done].
    + exists (0, 1). split; [apply elem_of_cells; nia | done].
  - exists (0, 0). split; [apply elem_of_cells; nia | done].
Qed.

Lemma elem_of_get_blank_spaces {Q} (b : Board Q) m :
  m ∈ get_blank_spaces b ↔ m ∈ cells (width b) (height b) ∧ m ∉ occupied b.
Proof. unfold get_blank_spaces. rewrite list_elem_of_filter. tauto. Qed.

Lemma legal_not_moved {Q} (b : Board Q) m :
  active_loc b = None →
  m ∈ get_legal_moves b ↔ m ∈ cells (width b) (height b) ∧ m ∉ occupied b.
Proof.
  intros E. unfold get_legal_moves. rewrite E.
  apply elem_of_get_blank_spaces.
Qed.

Lemma get_random_starting_positions_ok h w wd :
  2 ≤ h * w →
  ∃ om, legal_opening w h om = true ∧
        get_random_starting_positions h w wd = (Ok om, drawn 2 wd).
Proof.
  intros Hwh. unfold get_random_starting_positions. simpl.
  set (b := new_board _ _ w h).
  destruct (two_cells w h (0, 0) Hwh) as (c0 & Hc0 & _).
  destruct (choice_ok (get_legal_moves b) wd) as (m1 & Hm1 & E1).
  { intros E.
    assert (Hin : c0 ∈ get_legal_moves b).
    { apply legal_not_moved; [done|]. split; [done | apply not_elem_of_nil]. }
    rewrite E in Hin. by apply not_elem_of_nil in Hin. }
  destruct (two_cells w h m1 Hwh) as (c1 & Hc1 & Hne).
  destruct (choice_ok (get_legal_moves (place b m1)) (drawn 1 wd))
    as (m2 & Hm2 & E2).
  { intros E.
    assert (Hin : c1 ∈ get_legal_moves (place b m1)).
    { apply legal_not_moved; [done|]. split; [done|].
      by intros ?%list_elem_of_singleton. }
    rewrite E in Hin. by apply not_elem_of_nil in Hin. }
  exists [m1; m2]. split.
  - simpl. apply bool_decide_eq_true.
    apply legal_not_moved in Hm1 as [Hm1 _]; [|done].
    pose proof Hm2 as Hm2'.
    apply legal_not_moved in Hm2' as [Hc2 Hn2]; [|done].
    split_and!; [done..|]. intros ->. apply Hn2, list_elem_of_here.
  - rewrite (bind_ok _ _ wd (place (place b m1) m2, [m1; m2]) (drawn 2 wd));
      [done|].
    rewrite (bind_ok _ _ wd (place b m1, [m1]) (drawn 1 wd)).
    + simpl. rewrite (bind_ok _ _ _ (place (place b m1) m2, [m1; m2])
                        (drawn 2 wd)); [done|].
      rewrite (bind_ok _ _ _ _ _ E2).
      unfold lift. rewrite (bind_ok _ _ _ (place (place b m1) m2)
                              (drawn 2 wd)); [done|].
      by rewrite (apply_move_legal _ m2 Hm2).
    + rewrite (bind_ok _ _ _ _ _ E1).
      rewrite (bind_ok _ _ _ (place b m1) (drawn 1 wd)); [done|].
      unfold lift. by rewrite (apply_move_legal b m1 Hm1).
Qed.

Lemma stateless_ret {A} (a : A) : stateless (mret a).
Proof. by intros w. Qed.

Lemma stateless_lift {A} (r : Res A) : stateless (lift r).
Proof. by intros w. Qed.

Lemma stateless_raise {A} e : stateless (raise e : M A).
Proof. by intros w. Qed.

Lemma stateless_bind {A B} (m : M A) (f : A → M B) :
  stateless m → (∀ a, stateless (f a)) → stateless (m ≫= f).
Proof.
  intros Hm Hf w. unfold mbind, M_bind. specialize (Hm w).
  destruct (m w) as [[a|e] w1]; simpl in *; subst; [apply Hf | done].
Qed.

Lemma stateless_mapM {A B} (f : A → M B) l :
  (∀ a, stateless (f a)) → stateless (mapM f l).
Proof.
  intros Hf. induction l as [|x l IH]; [apply stateless_ret|].
  simpl. apply stateless_bind; [done|]. intros y.
  apply stateless_bind; [done|]. intros k. apply stateless_ret.
Qed.

Lemma stateless_for_each {A S} (l : list A) (body : S → A → M S) s :
  (∀ s a, stateless (body s a)) → stateless (for_each l body s).
Proof.
  intros Hb. revert s. induction l as [|x l IH]; intros s;
    [apply stateless_ret|].
  simpl. by apply stateless_bind.
Qed.

(** ** prepare_fair_match *)

Lemma stateless_apply_opening om boards : stateless (apply_opening om boards).
Proof.
  apply stateless_for_each. intros bs m. apply stateless_mapM.
  intros b. apply stateless_lift.
Qed.

Lemma mapM_lift_two {A B} (g : A → Res B) x y x' y' wd :
  g x = Ok x' → g y = Ok y' →
  mapM (λ a, lift (g a)) [x; y] wd = (Ok [x'; y'], wd).
Proof.
  intros Hx Hy. simpl. unfold mbind, M_bind, lift, mret, M_ret.
  by rewrite Hx, Hy.
Qed.

Lemma apply_opening_legal p1 p2 w h om wd :
  legal_opening w h om = true →
  apply_opening om [new_board p1 p2 w h; new_board p2 p1 w h] wd
  = (Ok (fair_pair p1 p2 w h om), wd).
Proof.
  destruct om as [|m1 [|m2 [|]]]; try done. simpl.
  intros (H1 & H2 & Hne)%bool_decide_eq_true.
  assert (L1 : ∀ q1 q2 : P, apply_move (new_board q1 q2 w h) m1
                  = Ok (place (new_board q1 q2 w h) m1)).
  { intros. apply apply_move_legal, legal_not_moved; [done|].
    split; [done | apply not_elem_of_nil]. }
  assert (L2 : ∀ q1 q2 : P, apply_move (place (new_board q1 q2 w h) m1) m2
                  = Ok (place (place (new_board q1 q2 w h) m1) m2)).
  { intros. apply apply_move_legal, legal_not_moved; [done|].
    split; [done|]. simpl. intros ?%list_elem_of_singleton. by apply Hne. }
  unfold apply_opening, fair_pair. simpl for_each.
  rewrite (bind_ok _ _ _ _ _
             (mapM_lift_two (λ b, apply_move b m1) _ _ _ _ wd
                (L1 p1 p2) (L1 p2 p1))).
  by rewrite (bind_ok _ _ _ _ _
                (mapM_lift_two (λ b, apply_move b m2) _ _ _ _ wd
                   (L2 p1 p2) (L2 p2 p1))).
Qed.

Lemma prepare_fair_match_unfold p1 p2 o w h :
  prepare_fair_match p1 p2 o w h
  = (om ← (if falsy o then get_random_starting_positions h w
            else mret (default [] o));
     boards ← apply_opening om [new_board p1 p2 w h; new_board p2 p1 w h];
     mret (boards, om)).
Proof. reflexivity. Qed.

Lemma prepare_fair_match_supplied p1 p2 om w h wd :
  legal_opening w h om = true →
  prepare_fair_match p1 p2 (Some om) w h wd
  = (Ok (fair_pair p1 p2 w h om, om), wd).
Proof.
  intros Hom. rewrite prepare_fair_match_unfold.
  assert (falsy (Some om) = false) as -> by by destruct om.
  rewrite (bind_ok _ _ wd om wd); [|done].
  by rewrite (bind_ok _ _ _ _ _ (apply_opening_legal p1 p2 w h om wd Hom)).
Qed.

Lemma prepare_fair_match_omitted p1 p2 o w h wd :
  falsy o = true → 2 ≤ h * w →
  ∃ om, legal_opening w h om = true ∧
        get_random_starting_positions h w wd = (Ok om, drawn 2 wd) ∧
        prepare_fair_match p1 p2 o w h wd
        = (Ok (fair_pair p1 p2 w h om, om), drawn 2 wd).
Proof.
  intros Ho Hwh.
  destruct (get_random_starting_positions_ok h w wd Hwh) as (om & Hom & E).
  exists om. split_and!; [done..|].
  rewrite prepare_fair_match_unfold, Ho.
  rewrite (bind_ok _ _ _ _ _ E).
  by rewrite (bind_ok _ _ _ _ _ (apply_opening_legal p1 p2 w h om _ Hom)).
Qed.

Lemma stateless_prepare_fair_match p1 p2 om w h :
  om ≠ [] → stateless (prepare_fair_match p1 p2 (Some om) w h).
Proof.
  intros Hom. rewrite prepare_fair_match_unfold.
  assert (falsy (Some om) = false) as -> by by destruct om.
  apply stateless_bind; [apply stateless_ret|]. intros om'.
  apply stateless_bind; [apply stateless_apply_opening|]. intros bs.
  apply stateless_ret.
Qed.

(** C2. For two players and an opening pair -- one supplied, two different
    cells of the board, or one drawn by the sampler on a board of at least
    two cells -- [prepare_fair_match] returns exactly two games and the
    opening [[m1; m2]] they were built with.  That opening is the supplied
    one, with the interpreter state untouched, or the sampler's own result
    on the same state, two draws later.  The two games are the fresh boards
    of the given size with [m1] then [m2] applied: in both exactly the
    cells [m1] and [m2] are occupied, so their blank spaces are the same
    and are the cells of the board other than these two; the first player
    is to move in game 0 and waits in game 1, the second player is to move
    in game 1 and waits in game 0. *)
Theorem prepare_fair_match_fair (p1 p2 : P) o w h wd :
  (if falsy o then 2 ≤ h * w else legal_opening w h (default [] o) = true) →
  ∃ m1 m2 b0 b1 wd',
    (if falsy o
     then get_random_starting_positions h w wd = (Ok [m1; m2], wd') ∧
          wd' = drawn 2 wd
     else o = Some [m1; m2] ∧ wd' = wd) ∧
    m1 ∈ cells w h ∧ m2 ∈ cells w h ∧ m1 ≠ m2 ∧
    prepare_fair_match p1 p2 o w h wd = (Ok ([b0; b1], [m1; m2]), wd') ∧
    [b0; b1] = fair_pair p1 p2 w h [m1; m2] ∧
    b0 = mkBoard w h p1 p2 [m2; m1] (Some m1) (Some m2) ∧
    b1 = mkBoard w h p2 p1 [m2; m1] (Some m1) (Some m2) ∧
    get_blank_spaces b0 = get_blank_spaces b1 ∧
    (∀ m, m ∈ get_blank_spaces b0 ↔ m ∈ cells w h ∧ m ≠ m1 ∧ m ≠ m2) ∧
    occupied b0 = occupied b1 ∧
    active_player b0 = p1 ∧ inactive_player b1 = p1 ∧
    active_player b1 = p2 ∧ inactive_player b0 = p2 ∧
    opening_of b0 = [m1; m2] ∧ opening_of b1 = [m1; m2].
Proof.
  intros Ho.
  assert (Hgen : ∃ om wd', legal_opening w h om = true ∧
            (if falsy o
             then get_random_starting_positions h w wd = (Ok om, wd') ∧
                  wd' = drawn 2 wd
             else o = Some om ∧ wd' = wd) ∧
            prepare_fair_match p1 p2 o w h wd
            = (Ok (fair_pair p1 p2 w h om, om), wd')).
  { destruct (falsy o) eqn:Hf.
    - destruct (prepare_fair_match_omitted p1 p2 o w h wd Hf Ho)
        as (om & Hom & Es & E). by exists om, (drawn 2 wd).
    - destruct o as [om|]; [|done]. simpl in Ho.
      exists om, wd. split_and!; [done..|].
      by apply prepare_fair_match_supplied. }
  destruct Hgen as (om & wd' & Hom & Hsrc & E).
  destruct om as [|m1 [|m2 [|]]]; try done.
  simpl in Hom. apply bool_decide_eq_true in Hom as (H1 & H2 & Hne).
  exists m1, m2, (mkBoard w h p1 p2 [m2; m1] (Some m1) (Some m2)),
    (mkBoard w h p2 p1 [m2; m1] (Some m1) (Some m2)), wd'.
  split_and!; try done.
  intros m. unfold get_blank_spaces. simpl.
  rewrite list_elem_of_filter, !not_elem_of_cons.
  split.
  - intros [(? & ? & _) ?]. by split_and!.
  - intros (? & ? & ?). split; [|done]. split_and!; [done..|].
    apply not_elem_of_nil.
Qed.

(** C5. With a supplied, non-empty opening [prepare_fair_match] never
    touches the interpreter state, so the sampler draws nothing; the
    opening it returns is the one supplied, and it does return when the
    opening is legal.  Without one (None or the empty list, both false in
    Python) the opening returned is the sampler's, two draws later. *)
Theorem prepare_fair_match_keeps_opening (p1 p2 : P) om w h wd :
  om ≠ [] →
  (prepare_fair_match p1 p2 (Some om) w h wd).2 = wd ∧
  (∀ bs om', (prepare_fair_match p1 p2 (Some om) w h wd).1 = Ok (bs, om') →
             om' = om) ∧
  (legal_opening w h om = true →
   ∃ bs, prepare_fair_match p1 p2 (Some om) w h wd = (Ok (bs, om), wd)) ∧
  (∀ o, falsy o = true → 2 ≤ h * w →
   ∃ bs om', get_random_starting_positions h w wd = (Ok om', drawn 2 wd) ∧
             prepare_fair_match p1 p2 o w h wd = (Ok (bs, om'), drawn 2 wd)).
Proof.
  intros Hom. split_and!.
  - by apply stateless_prepare_fair_match.
  - intros bs om'. rewrite prepare_fair_match_unfold.
    assert (falsy (Some om) = false) as -> by by destruct om.
    rewrite (bind_ok _ _ wd om wd); [|done]. simpl.
    unfold mbind, M_bind.
    destruct (apply_opening om _ wd) as [[bs'|e] w1]; simpl; [|done].
    by intros [= _ <-].
  - intros Hl. eexists. by apply prepare_fair_match_supplied.
  - intros o Ho Hwh.
    destruct (prepare_fair_match_omitted p1 p2 o w h wd Ho Hwh)
      as (om' & _ & E1 & E2). eauto.
Qed.

(** ** prepare_same_fair_matches *)

Lemma drawn_drawn a b wd : drawn a (drawn b wd) = drawn (a + b) wd.
Proof. unfold drawn. simpl. do 2 f_equal. lia. Qed.

Lemma drawn_0 wd : drawn 0 wd = wd.
Proof. by destruct wd as [[]]. Qed.

Lemma same_opening_moves_ok {A} (l : list A) wd :
  ∃ oms, length oms = length l ∧
         Forall (λ om, legal_opening 7 7 om = true) oms ∧
         mapM (λ _, get_random_starting_positions 7 7) l wd
         = (Ok oms, drawn (2 * length l) wd).
Proof.
  revert wd. induction l as [|x l IH]; intros wd.
  - exists []. split_and!; [done..|]. simpl. by rewrite drawn_0.
  - destruct (get_random_starting_positions_ok 7 7 wd) as (om & Hom & E);
      [lia|].
    destruct (IH (drawn 2 wd)) as (oms & Hlen & Hall & E').
    exists (om :: oms). split_and!; [simpl; lia | by constructor |].
    simpl mapM. rewrite (bind_ok _ _ _ _ _ E), (bind_ok _ _ _ _ _ E').
    unfold mret, M_ret. rewrite drawn_drawn. do 2 f_equal. simpl. lia.
Qed.

Lemma build_games_ok p1 p2 oms games wd :
  Forall (λ om, legal_opening 7 7 om = true) oms →
  for_each oms (λ games opening_moves,
      '(boards, _) ← prepare_fair_match p1 p2 (Some opening_moves) 7 7;
      mret (games ++ boards)) games wd
  = (Ok (games ++ (om ← oms; fair_pair p1 p2 7 7 om)), wd).
Proof.
  intros Hall. revert games.
  induction Hall as [|om oms Hom Hall IH]; intros games.
  - simpl. by rewrite app_nil_r.
  - simpl for_each. rewrite (bind_ok _ _ wd (games ++ fair_pair p1 p2 7 7 om) wd).
    + rewrite IH, bind_cons. by rewrite <-app_assoc.
    + by rewrite (bind_ok _ _ _ _ _
                    (prepare_fair_match_supplied p1 p2 om 7 7 wd Hom)).
Qed.

Lemma length_schedule agent opp oms :
  Forall (λ om, legal_opening 7 7 om = true) oms →
  length (schedule agent opp oms) = 2 * length oms.
Proof.
  unfold schedule. induction 1 as [|om oms _ _ IH]; [done|].
  rewrite bind_cons, length_app, IH. simpl. lia.
Qed.

(** Every step of the generator returns the schedule of its opponent and
    leaves the state alone. *)
Lemma prepare_same_fair_matches_ok agent opponents n wd :
  ∃ oms gen,
    length oms = n ∧ Forall (λ om, legal_opening 7 7 om = true) oms ∧
    mapM (λ _, get_random_starting_positions 7 7) (seq 0 n) wd
    = (Ok oms, drawn (2 * n) wd) ∧
    prepare_same_fair_matches agent opponents n wd
    = (Ok gen, drawn (2 * n) wd) ∧
    Forall2 (λ next opp, ∀ w, next w = (Ok (schedule agent opp oms), w))
      gen opponents.
Proof.
  destruct (same_opening_moves_ok (seq 0 n) wd) as (oms & Hlen & Hall & E).
  rewrite length_seq in Hlen, E.
  eexists oms, _. split_and!; [done..| |].
  - unfold prepare_same_fair_matches. by rewrite (bind_ok _ _ _ _ _ E).
  - apply Forall2_fmap_l, Forall_Forall2_diag, Forall_forall.
    intros opp _ w.
    rewrite (bind_ok _ _ _ _ _
               (build_games_ok (player agent) (player opp) oms [] w Hall)).
    simpl app. fold (schedule agent opp oms).
    rewrite (length_schedule agent opp oms Hall), Hlen, Nat.eqb_refl.
    done.
Qed.

Lemma for_gen_collect {A B} (gen : list (M A)) (xs : list B) (f : B → A)
    acc w :
  Forall2 (λ next x, ∀ w, next w = (Ok (f x), w)) gen xs →
  for_gen gen (λ seqs games, mret (seqs ++ [games])) acc w
  = (Ok (acc ++ (f <$> xs)), w).
Proof.
  intros Hgen. revert acc.
  induction Hgen as [|next x gen xs Hn _ IH]; intros acc.
  - simpl. by rewrite app_nil_r.
  - unfold for_gen in *. simpl for_each.
    rewrite (bind_ok _ _ w (acc ++ [f x]) w).
    + rewrite IH. by rewrite <-app_assoc.
    + by rewrite (bind_ok _ _ _ _ _ (Hn w)).
Qed.

Lemma game_sequences_ok agent opponents n wd :
  ∃ oms,
    length oms = n ∧ Forall (λ om, legal_opening 7 7 om = true) oms ∧
    mapM (λ _, get_random_starting_positions 7 7) (seq 0 n) wd
    = (Ok oms, drawn (2 * n) wd) ∧
    game_sequences agent opponents n wd
    = (Ok ((λ opp, schedule agent opp oms) <$> opponents), drawn (2 * n) wd).
Proof.
  destruct (prepare_same_fair_matches_ok agent opponents n wd)
    as (oms & gen & Hlen & Hall & E1 & E2 & Hgen).
  exists oms. split_and!; [done..|].
  unfold game_sequences. rewrite (bind_ok _ _ _ _ _ E2).
  by rewrite (for_gen_collect gen opponents _ [] _ Hgen).
Qed.

Lemma schedule_lookup agent opp oms j :
  schedule agent opp oms !! (2 * j)
  = after_opening (new_board (player agent) (player opp) 7 7) <$> oms !! j ∧
  schedule agent opp oms !! (2 * j + 1)
  = after_opening (new_board (player opp) (player agent) 7 7) <$> oms !! j.
Proof.
  unfold schedule. revert j. induction oms as [|om oms IH]; intros j.
  - by rewrite !lookup_nil.
  - rewrite bind_cons. destruct j as [|j]; [done|].
    replace (2 * S j) with (S (S (2 * j))) by lia. simpl. apply IH.
Qed.

(** The game at position [i] of a schedule: opening [i / 2], the anchor
    to move at even positions and the opponent at odd ones. *)
Lemma schedule_lookup_inv agent opp oms i g :
  Forall (λ om, legal_opening 7 7 om = true) oms →
  schedule agent opp oms !! i = Some g →
  ∃ m1 m2, oms !! (i / 2) = Some [m1; m2] ∧
    occupied g = [m2; m1] ∧ width g = 7 ∧ height g = 7 ∧
    pair_ids g = {[player agent; player opp]}.
Proof.
  intros Hall Hg.
  destruct (schedule_lookup agent opp oms (i / 2)) as [He Ho].
  assert (Hi : i = 2 * (i / 2) ∨ i = 2 * (i / 2) + 1).
  { pose proof (Nat.div_mod_eq i 2).
    pose proof (Nat.mod_upper_bound i 2). lia. }
  destruct (oms !! (i / 2)) as [om|] eqn:Eom.
  - assert (Hom : legal_opening 7 7 om = true).
    { eapply Forall_forall in Hall; [done|]. by eapply list_elem_of_lookup_2. }
    destruct om as [|m1 [|m2 [|]]]; try done.
    exists m1, m2. split; [done|].
    destruct Hi as [Hi|Hi]; rewrite Hi in Hg.
    + rewrite He in Hg. injection Hg as <-. by split_and!.
    + rewrite Ho in Hg. injection Hg as <-. split_and!; try done.
      unfold pair_ids; simpl. apply (comm_L (∪)).
  - destruct Hi as [Hi|Hi]; rewrite Hi in Hg; [by rewrite He in Hg|].
    by rewrite Ho in Hg.
Qed.

Lemma pair_ids_inj (a x y : P) :
  ({[a; x]} : gset P) = {[a; y]} → x = y.
Proof.
  intros Heq.
  assert (Hx : x ∈ ({[a; y]} : gset P)).
  { rewrite <-Heq. apply elem_of_union_r. by apply elem_of_singleton. }
  assert (Hy : y ∈ ({[a; x]} : gset P)).
  { rewrite Heq. apply elem_of_union_r. by apply elem_of_singleton. }
  apply elem_of_union in Hx as [Hx|Hx]; apply elem_of_singleton in Hx;
    apply elem_of_union in Hy as [Hy|Hy]; apply elem_of_singleton in Hy;
    congruence.
Qed.

Lemma blank_spaces_geometry (g1 g2 : Board P) :
  width g1 = width g2 → height g1 = height g2 → occupied g1 = occupied g2 →
  get_blank_spaces g1 = get_blank_spaces g2.
Proof. unfold get_blank_spaces. by intros -> -> ->. Qed.

(** C1, amended. For an anchor, a list of [k] opponents whose players are
    pairwise different, and a match count [n], the scheduler yields [k]
    sequences of [2 * n] games each; at every position the games of all
    sequences have the same blank spaces, and no two of them have the same
    unordered pair of players. *)
Theorem game_sequences_shared_opening (agent : Agent P) opponents n wd :
  NoDup (player <$> opponents) →
  ∃ seqs wd', game_sequences agent opponents n wd = (Ok seqs, wd') ∧
              shared_opening_invariant seqs (length opponents) n.
Proof.
  intros Hnd.
  destruct (game_sequences_ok agent opponents n wd)
    as (oms & Hlen & Hall & _ & E).
  eexists _, _. split; [exact E|]. split_and!.
  - by rewrite length_fmap.
  - apply Forall_fmap, Forall_forall. intros opp _. simpl.
    by rewrite length_schedule, Hlen.
  - intros i a b sa sb ga gb Ha Hb Hga Hgb.
    apply list_lookup_fmap_Some in Ha as (oa & -> & Ha).
    apply list_lookup_fmap_Some in Hb as (ob & -> & Hb).
    apply schedule_lookup_inv in Hga as (m1 & m2 & E1 & Oa & Wa & Ha' & Pa);
      [|done].
    apply schedule_lookup_inv in Hgb as (m1' & m2' & E2 & Ob & Wb & Hb' & Pb);
      [|done].
    rewrite E1 in E2. injection E2 as <- <-. split.
    + apply blank_spaces_geometry; congruence.
    + intros Hab. rewrite Pa, Pb. intros Heq.
      assert (Hne : player oa ≠ player ob).
      { intros Hp. apply Hab.
        eapply (NoDup_lookup (player <$> opponents)); [done| |].
        - rewrite list_lookup_fmap, Ha. done.
        - rewrite list_lookup_fmap, Hb. simpl. by rewrite Hp. }
      by apply (pair_ids_inj (player agent)) in Heq.
Qed.

(** C3. The openings of a round are drawn once, [n] calls of the sampler
    before the first opponent; no step of the generator touches the state
    after that, whatever the number of opponents; and the games of every
    sequence are opened, two by two, with those [n] openings in order. *)
Theorem openings_generated_once (agent : Agent P) opponents n wd :
  ∃ oms gen seqs,
    length oms = n ∧
    mapM (λ _, get_random_starting_positions 7 7) (seq 0 n) wd
    = (Ok oms, drawn (2 * n) wd) ∧
    prepare_same_fair_matches agent opponents n wd
    = (Ok gen, drawn (2 * n) wd) ∧
    length gen = length opponents ∧
    Forall stateless gen ∧
    game_sequences agent opponents n wd = (Ok seqs, drawn (2 * n) wd) ∧
    length seqs = length opponents ∧
    ∀ s g, s ∈ seqs →
      opening_of <$> s = (om ← oms; [om; om]) ∧ (g ∈ s → opening_of g ∈ oms).
Proof.
  destruct (prepare_same_fair_matches_ok agent opponents n wd)
    as (oms & gen & Hlen & Hall & E1 & E2 & Hgen).
  destruct (game_sequences_ok agent opponents n wd)
    as (oms' & _ & _ & E1' & E3).
  rewrite E1 in E1'. injection E1' as <-.
  exists oms, gen, ((λ opp, schedule agent opp oms) <$> opponents).
  split_and!; try done.
  - by eapply Forall2_length.
  - apply Forall_forall. intros next Hnext.
    apply list_elem_of_lookup in Hnext as [i Hi].
    destruct (Forall2_lookup_l _ _ _ _ _ Hgen Hi) as (opp & _ & Hstep).
    intros w. by rewrite Hstep.
  - by rewrite length_fmap.
  - intros s g (opp & -> & _)%list_elem_of_fmap.
    assert (Hs : opening_of <$> schedule agent opp oms = om ← oms; [om; om]).
    { unfold schedule. clear -Hall.
      induction Hall as [|om oms Hom _ IH]; [done|].
      rewrite !bind_cons, fmap_app, IH. f_equal.
      destruct om as [|m1 [|m2 [|]]]; done. }
    split; [done|]. intros Hg.
    assert (Hin : opening_of g ∈ opening_of <$> schedule agent opp oms)
      by by apply list_elem_of_fmap_2.
    rewrite Hs in Hin. apply list_elem_of_bind in Hin as (om & Hin & Hom).
    apply elem_of_cons in Hin as [->| Hin]; [done|].
    by apply list_elem_of_singleton in Hin as ->.
Qed.

(** C10. In the sequence of every opponent, the games at positions
    [2 * j] and [2 * j + 1] are the two games [prepare_fair_match] builds
    from the [j]-th shared opening; the anchor is to move in the first and
    the opponent in the second. *)
Theorem schedule_pairs_by_opening (agent : Agent P) opponents n wd :
  ∃ oms seqs wd',
    length oms = n ∧
    mapM (λ _, get_random_starting_positions 7 7) (seq 0 n) wd
    = (Ok oms, wd') ∧
    game_sequences agent opponents n wd = (Ok seqs, wd') ∧
    ∀ i opp, opponents !! i = Some opp →
      ∃ s, seqs !! i = Some s ∧
        ∀ j om, oms !! j = Some om →
          ∃ g0 g1,
            s !! (2 * j) = Some g0 ∧ s !! (2 * j + 1) = Some g1 ∧
            (∀ w, prepare_fair_match (player agent) (player opp) (Some om)
                    7 7 w = (Ok ([g0; g1], om), w)) ∧
            active_player g0 = player agent ∧
            inactive_player g0 = player opp ∧
            active_player g1 = player opp ∧
            inactive_player g1 = player agent.
Proof.
  destruct (game_sequences_ok agent opponents n wd)
    as (oms & Hlen & Hall & E1 & E2).
  eexists oms, _, _. split_and!; [done..|].
  intros i opp Hopp. exists (schedule agent opp oms). split.
  { by rewrite list_lookup_fmap, Hopp. }
  intros j om Hom.
  destruct (schedule_lookup agent opp oms j) as [He Ho].
  rewrite Hom in He, Ho. eexists _, _. split_and!; [exact He | exact Ho |..].
  - intros w. apply prepare_fair_match_supplied.
    eapply Forall_forall in Hall; [done|]. by eapply list_elem_of_lookup_2.
  - assert (Hl : legal_opening 7 7 om = true).
    { eapply Forall_forall in Hall; [done|]. by eapply list_elem_of_lookup_2. }
    by destruct om as [|m1 [|m2 [|]]].
  - assert (Hl : legal_opening 7 7 om = true).
    { eapply Forall_forall in Hall; [done|]. by eapply list_elem_of_lookup_2. }
    by destruct om as [|m1 [|m2 [|]]].
  - assert (Hl : legal_opening 7 7 om = true).
    { eapply Forall_forall in Hall; [done|]. by eapply list_elem_of_lookup_2. }
    by destruct om as [|m1 [|m2 [|]]].
  - assert (Hl : legal_opening 7 7 om = true).
    { eapply Forall_forall in Hall; [done|]. by eapply list_elem_of_lookup_2. }
    by destruct om as [|m1 [|m2 [|]]].
Qed.

(** ** Loops *)

Lemma for_each_ind {A S} (I : list A → S → World P → Prop)
    (body : S → A → M S) l s w s' w' :
  I [] s w →
  (∀ pre a s w s' w', I pre s w → body s a w = (Ok s', w') →
                      I (pre ++ [a]) s' w') →
  for_each l body s w = (Ok s', w') → I l s' w'.
Proof.
  intros H0 Hstep. revert s w H0.
  assert (G : ∀ pre s w, I pre s w →
            for_each l body s w = (Ok s', w') → I (pre ++ l) s' w').
  { induction l as [|a l IH]; intros pre s w HI E.
    - injection E as <- <-. by rewrite app_nil_r.
    - simpl in E. apply bind_inv in E as (s1 & w1 & E1 & E2).
      replace (pre ++ a :: l) with ((pre ++ [a]) ++ l)
        by by rewrite <-app_assoc.
      eapply IH; [|done]. by eapply Hstep. }
  intros s w HI E. by apply (G [] s w).
Qed.

(** A loop that raises does so in the body, after a prefix that went
    through. *)
Lemma for_each_raise {A S} (body : S → A → M S) l s w e w' :
  for_each l body s w = (Raise e, w') →
  ∃ pre a post s1 w1,
    l = pre ++ a :: post ∧ for_each pre body s w = (Ok s1, w1) ∧
    body s1 a w1 = (Raise e, w').
Proof.
  revert s w. induction l as [|a l IH]; intros s w E; [done|].
  simpl in E. unfold mbind, M_bind in E.
  destruct (body s a w) as [[s1|e1] w1] eqn:Eb.
  - destruct (IH _ _ E) as (pre & a' & post & s2 & w2 & -> & E1 & E2).
    exists (a :: pre), a', post, s2, w2. split_and!; [done| |done].
    simpl. by rewrite (bind_ok _ _ _ _ _ Eb).
  - injection E as <- <-. by exists [], a, l, s, w.
Qed.

(** The two nested loops over a generator of stateless steps are one loop
    over the games of all steps. *)
Lemma for_gen_flatten {A B S} (gen : list (M (list A))) (xs : list B)
    (f : B → list A) (body : S → A → M S) s w :
  Forall2 (λ next x, ∀ w, next w = (Ok (f x), w)) gen xs →
  for_gen gen (λ s games, for_each games body s) s w
  = for_each (x ← xs; f x) body s w.
Proof.
  intros Hgen. revert s w.
  induction Hgen as [|next x gen xs Hn _ IH]; intros s w; [done|].
  rewrite bind_cons, for_each_app. unfold for_gen in *. simpl for_each.
  apply bind_ext; [|done]. by rewrite (bind_ok _ _ _ _ _ (Hn w)).
Qed.

(** ** Counters *)

Lemma total_insert `{Countable K} (k : K) v (c : gmap K nat) :
  c !! k = None → total (<[k := v]> c) = v + total c.
Proof.
  intros Hk. unfold total. apply map_fold_insert_L; [|done]. intros. lia.
Qed.

Lemma total_delete `{Countable K} (k : K) v (c : gmap K nat) :
  c !! k = Some v → total c = v + total (delete k c).
Proof.
  intros Hk. rewrite <-(insert_delete_id c k v Hk) at 1.
  apply total_insert, lookup_delete_eq.
Qed.

Lemma total_incr `{Countable K} (k : K) (c : gmap K nat) :
  total (incr k c) = S (total c).
Proof.
  unfold incr. rewrite lookup_total_alt.
  destruct (c !! k) as [v|] eqn:Hk; simpl.
  - rewrite (total_delete k v c Hk), <-insert_delete_eq.
    rewrite total_insert by apply lookup_delete_eq. lia.
  - by rewrite total_insert.
Qed.

Lemma lookup_incr `{Countable K} (k j : K) (c : gmap K nat) :
  incr k c !! j = if decide (k = j) then Some (S (c !!! k)) else c !! j.
Proof. unfold incr. apply lookup_insert. Qed.

Lemma count_entry_total `{Countable K} (c : gmap K nat) (k : K) n :
  c !! k = count_entry n → c !!! k = n.
Proof. rewrite lookup_total_alt. intros ->. by destruct n. Qed.

(** ** play_fair_round *)

Lemma won_by_app p l1 l2 : won_by p (l1 ++ l2) = won_by p l1 + won_by p l2.
Proof.
  induction l1 as [|[g [o|e]] l1 IH]; simpl; [done| |done].
  rewrite IH. lia.
Qed.

Lemma tally_ok counts g w counts' w' :
  tally counts g w = (Ok counts', w') →
  ∃ o r', play g (rng w) = (Ok o, r') ∧
          w' = mkWorld r' (stdout w) (played w ++ [(g, Ok o)]) ∧
          counts' = (incr (winner o) counts.1, incr (loss_reason o) counts.2).
Proof.
  destruct counts as [wc lr]. unfold tally, call_play, mbind, M_bind.
  destruct (play g (rng w)) as [[o|e] r'] eqn:Ep; [|done].
  intros [= <- <-]. by exists o, r'.
Qed.

Lemma tally_raise counts g w e w' :
  tally counts g w = (Raise e, w') →
  ∃ r', play g (rng w) = (Raise e, r') ∧
        w' = mkWorld r' (stdout w) (played w ++ [(g, Raise e)]).
Proof.
  destruct counts as [wc lr]. unfold tally, call_play, mbind, M_bind.
  destruct (play g (rng w)) as [[o|e'] r'] eqn:Ep; [done|].
  intros [= <- <-]. by exists r'.
Qed.

Lemma tallied_start w0 : tallied w0 [] (∅, ∅) w0.
Proof.
  exists []. split_and!; try done.
  - by rewrite app_nil_r.
  - constructor.
  - constructor.
Qed.

Lemma tallied_step w0 gs counts w g counts' w' :
  tallied w0 gs counts w → tally counts g w = (Ok counts', w') →
  tallied w0 (gs ++ [g]) counts' w'.
Proof.
  intros (new & Hp & Hs & Hg & Hc & Hgen & Hw & Ht) E.
  apply tally_ok in E as (o & r' & Ep & -> & ->).
  exists (new ++ [(g, Ok o)]). simpl. split_and!.
  - by rewrite Hp, <-app_assoc.
  - done.
  - by rewrite fmap_app, Hg.
  - apply Forall_app. split; [done|]. constructor; [by exists o | constructor].
  - apply Forall_app. split; [done|].
    constructor; [by exists (rng w), r' | constructor].
  - intros p. rewrite lookup_incr, won_by_app. simpl.
    rewrite (count_entry_total _ _ _ (Hw (winner o))).
    case_decide as Hd.
    + subst p. by replace (won_by (winner o) new + (1 + 0))
        with (S (won_by (winner o) new)) by lia.
    + rewrite Hw. f_equal. lia.
  - rewrite total_incr, Ht, length_app. simpl. lia.
Qed.

Lemma games_loop_ok w0 games counts' w' :
  for_each games tally (∅, ∅) w0 = (Ok counts', w') →
  tallied w0 games counts' w'.
Proof.
  apply (for_each_ind (tallied w0)); [apply tallied_start|].
  intros pre g s w s1 w1. apply tallied_step.
Qed.

Lemma games_loop_raise w0 games e w' :
  for_each games tally (∅, ∅) w0 = (Raise e, w') →
  ∃ oks g, played w' = played w0 ++ oks ++ [(g, Raise e)] ∧
           clean oks ∧ genuine (oks ++ [(g, Raise e)]) ∧
           stdout w' = stdout w0.
Proof.
  intros E.
  apply for_each_raise in E as (pre & g & post & s1 & w1 & -> & E1 & E2).
  apply games_loop_ok in E1 as (new & Hp & Hs & Hg & Hc & Hgen & _).
  apply tally_raise in E2 as (r' & Ep & ->).
  exists new, g. simpl. split_and!; [|done| |done].
  - by rewrite Hp, <-app_assoc.
  - apply Forall_app. split; [done|].
    constructor; [by exists (rng w1), r' | constructor].
Qed.

Lemma games_loop_total games counts w :
  play_total → ∃ counts' w', for_each games tally counts w = (Ok counts', w').
Proof.
  intros Ht. revert counts w.
  induction games as [|g games IH]; intros [wc lr] w; [by eexists _, _|].
  destruct (Ht g (rng w)) as (o & r' & Ep).
  simpl for_each.
  edestruct IH as (c' & w' & E). exists c', w'.
  erewrite bind_ok; [exact E|].
  unfold tally, call_play, mbind, M_bind. by rewrite Ep.
Qed.

Lemma length_round_games agent opponents oms :
  Forall (λ om, legal_opening 7 7 om = true) oms →
  length (round_games agent opponents oms)
  = 2 * length oms * length opponents.
Proof.
  intros Hall. unfold round_games.
  induction opponents as [|opp opps IH]; [simpl; lia|].
  rewrite bind_cons, length_app, IH, length_schedule by done. simpl. lia.
Qed.

Lemma play_fair_round_unfold cpu_agent test_agents n w :
  ∃ oms, length oms = n ∧ Forall (λ om, legal_opening 7 7 om = true) oms ∧
    play_fair_round cpu_agent test_agents n w
    = ('(win_counts, loss_reason_counts) ←
         for_each (round_games cpu_agent test_agents oms) tally (∅, ∅);
       assert (total win_counts =? 2 * n * length test_agents);;
       mret (win_counts, loss_reason_counts)) (drawn (2 * n) w).
Proof.
  destruct (prepare_same_fair_matches_ok cpu_agent test_agents n w)
    as (oms & gen & Hlen & Hall & _ & E & Hgen).
  exists oms. split_and!; [done..|].
  unfold play_fair_round. rewrite (bind_ok _ _ _ _ _ E).
  apply bind_ext; [|done].
  apply (for_gen_flatten gen test_agents _ tally _ _ Hgen).
Qed.

(** What a round that returns has done. *)
Lemma play_fair_round_ok cpu_agent test_agents n w wc lr w' :
  play_fair_round cpu_agent test_agents n w = (Ok (wc, lr), w') →
  ∃ oms, length oms = n ∧ Forall (λ om, legal_opening 7 7 om = true) oms ∧
         tallied (drawn (2 * n) w)
           (round_games cpu_agent test_agents oms) (wc, lr) w'.
Proof.
  destruct (play_fair_round_unfold cpu_agent test_agents n w)
    as (oms & Hlen & Hall & ->).
  intros E. exists oms. split_and!; [done..|].
  apply bind_inv in E as ([wc1 lr1] & w1 & E1 & E2).
  apply games_loop_ok in E1.
  apply bind_inv in E2 as ([] & w2 & E2 & E3).
  injection E3 as <- <- <-.
  unfold assert in E2. destruct (_ =? _); [|done]. by injection E2 as <-.
Qed.

(** A round raises only what a game raised. *)
Lemma play_fair_round_raise cpu_agent test_agents n w e w' :
  play_fair_round cpu_agent test_agents n w = (Raise e, w') →
  ∃ oks g, played w' = played w ++ oks ++ [(g, Raise e)] ∧
           clean oks ∧ genuine (oks ++ [(g, Raise e)]) ∧
           stdout w' = stdout w.
Proof.
  destruct (play_fair_round_unfold cpu_agent test_agents n w)
    as (oms & Hlen & Hall & ->).
  unfold mbind at 1, M_bind.
  destruct (for_each _ tally _ _) as [[[wc lr]|e1] w1] eqn:E1.
  - apply games_loop_ok in E1 as (new & _ & _ & _ & _ & _ & _ & Ht).
    simpl in Ht. rewrite length_round_games, Hlen in Ht by done.
    rewrite Ht, Nat.eqb_refl. done.
  - intros [= <- <-]. by apply games_loop_raise in E1.
Qed.

(** C4. A round against [k] opponents with match count [n] that returns
    has played [2 * n * k] games -- the games of the [n] openings of the
    round against each opponent, in that order -- and none raised; each
    entry of the record is what [play] returned on that game; the win
    counter maps every player to the number of these games [play] reported
    it the winner of, and its values add up to the number of games played,
    [2 * n * k].  And the round does return when no game raises, each game
    reporting one winner. *)
Theorem play_fair_round_conserves_count (cpu_agent : Agent P)
    test_agents n w :
  (∀ wc lr w',
     play_fair_round cpu_agent test_agents n w = (Ok (wc, lr), w') →
     total wc = 2 * n * length test_agents ∧
     total wc = length (played_since w w') ∧
     length (played_since w w') = 2 * n * length test_agents ∧
     clean (played_since w w') ∧ genuine (played_since w w') ∧
     (∀ p, wc !!! p = won_by p (played_since w w')) ∧
     ∃ oms, length oms = n ∧
            (played_since w w').*1 = round_games cpu_agent test_agents oms) ∧
  (play_total →
   ∃ wc lr w',
     play_fair_round cpu_agent test_agents n w = (Ok (wc, lr), w')).
Proof.
  destruct (play_fair_round_unfold cpu_agent test_agents n w)
    as (oms & Hlen & Hall & E).
  assert (Hsum : ∀ wc lr w1,
    for_each (round_games cpu_agent test_agents oms) tally (∅, ∅)
      (drawn (2 * n) w) = (Ok (wc, lr), w1) →
    total wc = 2 * n * length test_agents).
  { intros wc lr w1 El.
    apply games_loop_ok in El as (new & _ & _ & _ & _ & _ & _ & Hs).
    simpl in Hs. by rewrite length_round_games, Hlen in Hs. }
  split.
  - intros wc lr w' Er.
    apply play_fair_round_ok in Er
      as (oms' & Hlen' & Hall' & new & Hp & _ & Hg & Hc & Hgen & Hw & Ht).
    simpl in Hp, Hw, Ht. unfold played_since. rewrite Hp, drop_app_length.
    assert (Hn : length new = 2 * n * length test_agents)
      by by rewrite <-(length_fmap fst), Hg, length_round_games, Hlen'.
    rewrite length_round_games, Hlen' in Ht by done.
    split_and!; [done|by rewrite Hn|done|done|done| |by exists oms'].
    intros p. by apply count_entry_total.
  - intros Ht.
    destruct (games_loop_total (round_games cpu_agent test_agents oms)
                (∅, ∅) (drawn (2 * n) w) Ht) as ([wc lr] & w' & El).
    exists wc, lr, w'.
    rewrite E, (bind_ok _ _ _ _ _ El). by rewrite (Hsum _ _ _ El), Nat.eqb_refl.
Qed.

(** ** run_fair_tournament: the loop over the rounds *)

Lemma count_entry_add x y :
  union_with (λ a b, Some (a + b)) (count_entry x) (count_entry y)
  = count_entry (x + y).
Proof. destruct x, y; simpl; try done; f_equal; lia. Qed.

Lemma fair_round_row_ok test_agents n aw alr idx c w all' w' :
  fair_round_row test_agents n (aw, alr) (idx, c) w = (Ok all', w') →
  ∃ wc lr w1,
    play_fair_round c test_agents n
      (mkWorld (rng w) (stdout w ++ [RowLabel (idx + 1) (name c)]) (played w))
    = (Ok (wc, lr), w1) ∧
    w' = mkWorld (rng w1)
           (stdout w1 ++ [format_row_results test_agents wc (2 * n)])
           (played w1) ∧
    all' = (update aw (delete (player c) wc), update alr lr).
Proof.
  unfold fair_round_row. intros E.
  apply bind_inv in E as ([] & w0 & E0 & E). injection E0 as <-.
  apply bind_inv in E as ([wc lr] & w1 & E1 & E).
  apply bind_inv in E as ([] & w2 & E2 & E). injection E2 as <-.
  injection E as <- <-. by exists wc, lr, w1.
Qed.

Lemma fair_round_row_raise test_agents n aw alr idx c w e w' :
  fair_round_row test_agents n (aw, alr) (idx, c) w = (Raise e, w') →
  play_fair_round c test_agents n
    (mkWorld (rng w) (stdout w ++ [RowLabel (idx + 1) (name c)]) (played w))
  = (Raise e, w').
Proof.
  unfold fair_round_row, print, mbind, M_bind.
  destruct (play_fair_round _ _ _ _) as [[[wc lr]|e1] w1]; [done|].
  by intros [= <- <-].
Qed.

Lemma rows_done_start test_agents n w0 : rows_done test_agents n w0 [] (∅, ∅) w0.
Proof. exists []. split_and!; try done; by rewrite app_nil_r. Qed.

Lemma rows_done_step test_agents n w0 pre all w row all' w' :
  rows_done test_agents n w0 pre all w →
  fair_round_row test_agents n all row w = (Ok all', w') →
  rows_done test_agents n w0 (pre ++ [row]) all' w'.
Proof.
  intros (hist & Hpre & Hrec & Hp & Hs & Hw) E.
  destruct all as [aw alr], row as [idx c].
  apply fair_round_row_ok in E as (wc & lr & w1 & E & -> & ->).
  apply play_fair_round_ok in E
    as (oms & Hlen & Hall & new & Hp1 & Hs1 & Hg & Hc & Hgen & Hwc & _).
  simpl in Hp1, Hs1, Hwc.
  exists (hist ++ [mkRound idx c wc new]). split_and!.
  - by rewrite fmap_app, Hpre.
  - apply Forall_app. split; [done|]. constructor; [|constructor].
    by exists oms.
  - simpl. rewrite Hp1, Hp, bind_app, <-app_assoc. simpl.
    by rewrite app_nil_r.
  - simpl. rewrite Hs1, Hs, bind_app, <-!app_assoc. done.
  - intros p. simpl. unfold update. rewrite lookup_union_with, Hw.
    rewrite sum_list_with_app. simpl. rewrite Nat.add_0_r.
    rewrite <-count_entry_add. f_equal. unfold credit. simpl.
    case_decide as Hd.
    + subst p. by rewrite lookup_delete_eq.
    + rewrite lookup_delete_ne by done.
      by rewrite Hwc, (count_entry_total _ _ _ (Hwc p)).
Qed.

Lemma rows_loop_ok test_agents n rows w all' w' :
  for_each rows (fair_round_row test_agents n) (∅, ∅) w = (Ok all', w') →
  rows_done test_agents n w rows all' w'.
Proof.
  apply (for_each_ind (rows_done test_agents n w)); [apply rows_done_start|].
  intros pre row s w1 s1 w2. apply rows_done_step.
Qed.

(** ** Wins and the players of the games *)

Lemma schedule_players agent opp oms g :
  Forall (λ om, legal_opening 7 7 om = true) oms →
  g ∈ schedule agent opp oms →
  (active_player g = player agent ∧ inactive_player g = player opp) ∨
  (active_player g = player opp ∧ inactive_player g = player agent).
Proof.
  intros Hall (om & Hg & Hom)%list_elem_of_bind.
  eapply Forall_forall in Hall; [|done].
  destruct om as [|m1 [|m2 [|]]]; try done.
  apply elem_of_cons in Hg as [->|Hg]; [by left|].
  apply list_elem_of_singleton in Hg as ->. by right.
Qed.

Lemma won_by_le_length p log : won_by p log ≤ length log.
Proof.
  induction log as [|[g [o|e]] log IH]; simpl; [lia| |lia].
  case_decide; lia.
Qed.

Lemma won_by_unregistered p log :
  play_contract → genuine log →
  Forall (λ g, p ≠ active_player g ∧ p ≠ inactive_player g) log.*1 →
  won_by p log = 0.
Proof.
  intros Hc Hgen Hun. induction log as [|[g [o|e]] log IH]; simpl; [done|..].
  - apply Forall_cons in Hgen as [(r & r' & Hp) Hgen].
    apply Forall_cons in Hun as [[Ha Hi] Hun]. simpl in *.
    rewrite IH by done. apply Hc in Hp.
    case_decide; [|done]. subst p. by destruct Hp.
  - apply Forall_cons in Hgen as [_ Hgen].
    apply Forall_cons in Hun as [_ Hun]. by apply IH.
Qed.

Lemma won_by_pos p log :
  0 < won_by p log → ∃ g o, (g, Ok o) ∈ log ∧ winner o = p.
Proof.
  induction log as [|[g [o|e]] log IH]; simpl; [lia|..].
  - case_decide as Hd.
    + intros _. exists g, o. split; [apply list_elem_of_here | done].
    + intros Hpos. destruct IH as (g' & o' & Hin & Hw); [lia|].
      exists g', o'. split; [by apply list_elem_of_further | done].
  - intros Hpos. destruct (IH Hpos) as (g' & o' & Hin & Hw).
    exists g', o'. split; [by apply list_elem_of_further | done].
Qed.

(** In a round a player other than the anchor wins at most the games of
    the opponents it plays for. *)
Lemma won_by_round p c test_agents oms seg :
  play_contract → genuine seg →
  Forall (λ om, legal_opening 7 7 om = true) oms →
  seg.*1 = round_games c test_agents oms → p ≠ player c →
  won_by p seg
  ≤ 2 * length oms * length (filter (λ t, player t = p) test_agents).
Proof.
  intros Hc Hgen Hall Hseg Hp. revert seg Hgen Hseg.
  induction test_agents as [|t ts IH]; intros seg Hgen Hseg.
  - apply fmap_nil_inv in Hseg as ->. simpl. lia.
  - unfold round_games in Hseg. rewrite bind_cons in Hseg.
    apply fmap_app_inv in Hseg as (s1 & s2 & H1 & H2 & ->).
    symmetry in H1, H2.
    apply Forall_app in Hgen as [Hg1 Hg2].
    rewrite won_by_app. specialize (IH s2 Hg2 H2).
    rewrite filter_cons. case_decide as Hd.
    + pose proof (won_by_le_length p s1) as Hle.
      assert (Hl : length s1 = 2 * length oms).
      { rewrite <-(length_fmap fst), H1. by apply length_schedule. }
      simpl length. nia.
    + rewrite (won_by_unregistered p s1); [lia|done..|].
      rewrite H1. apply Forall_forall. intros g Hg.
      destruct (schedule_players c t oms g Hall Hg) as [[-> ->]|[-> ->]];
        split; congruence.
Qed.

Lemma filter_player_nil p (agents : list (Agent P)) :
  p ∉ player <$> agents → filter (λ t, player t = p) agents = [].
Proof.
  induction agents as [|t ts IH]; [done|]. simpl.
  intros [Hne Hnin]%not_elem_of_cons.
  rewrite filter_cons_False by congruence. by apply IH.
Qed.

Lemma filter_player_NoDup p (agents : list (Agent P)) :
  NoDup (player <$> agents) →
  length (filter (λ t, player t = p) agents) ≤ 1.
Proof.
  induction agents as [|t ts IH]; simpl; [lia|].
  intros [Hnin Hnd]%NoDup_cons. rewrite filter_cons. case_decide as Hd.
  - subst p. rewrite filter_player_nil by done. simpl. lia.
  - by apply IH.
Qed.

Lemma credit_le p test_agents n r :
  play_contract → round_record test_agents n r →
  credit p r ≤ 2 * n * length (filter (λ t, player t = p) test_agents).
Proof.
  intros Hc (oms & Hlen & Hall & Hseg & _ & Hgen & Hw).
  unfold credit. case_decide as Hd; [lia|].
  rewrite (count_entry_total _ _ _ (Hw p)), <-Hlen.
  by eapply won_by_round.
Qed.

Lemma sum_list_with_bound {A} (f : A → nat) b l :
  Forall (λ x, f x ≤ b) l → sum_list_with f l ≤ length l * b.
Proof. induction 1 as [|x l Hx _ IH]; simpl; lia. Qed.

Lemma sum_list_with_pos {A} (f : A → nat) l :
  0 < sum_list_with f l → ∃ x, x ∈ l ∧ 0 < f x.
Proof.
  induction l as [|x l IH]; simpl; [lia|]. intros Hpos.
  destruct (decide (0 < f x)) as [Hx|Hx].
  - exists x. split; [apply list_elem_of_here | done].
  - destruct IH as (y & Hy & Hfy); [lia|].
    exists y. split; [by apply list_elem_of_further | done].
Qed.

Lemma count_entry_Some n v : count_entry n = Some v → v = n ∧ 0 < n.
Proof. destruct n; [done|]. intros [= <-]. lia. Qed.

(** A player credited with a win is a test agent's and won a game. *)
Lemma credit_pos p test_agents n r :
  play_contract → round_record test_agents n r → 0 < credit p r →
  p ∈ player <$> test_agents ∧
  ∃ g o, (g, Ok o) ∈ r_log r ∧ winner o = p.
Proof.
  intros Hc (oms & Hlen & Hall & Hseg & _ & Hgen & Hw).
  unfold credit. case_decide as Hd; [lia|].
  rewrite (count_entry_total _ _ _ (Hw p)). intros Hpos. split.
  - destruct (decide (p ∈ player <$> test_agents)) as [|Hnin]; [done|].
    pose proof (won_by_round p _ _ _ _ Hc Hgen Hall Hseg Hd) as Hle.
    rewrite filter_player_nil in Hle by done. simpl in Hle. lia.
  - by apply won_by_pos.
Qed.

(** ** run_fair_tournament: the summary *)

Lemma run_fair_tournament_unfold cpu_agents test_agents n w :
  run_fair_tournament cpu_agents test_agents n w
  = (for_each (imap pair cpu_agents) (fair_round_row test_agents n) (∅, ∅)
     ≫= summary cpu_agents test_agents n)
      (with_line (format_header test_agents) w).
Proof.
  unfold run_fair_tournament.
  rewrite (bind_ok _ _ w tt (with_line (format_header test_agents) w));
    [|done].
  apply bind_ext; [done|]. by intros [aw alr] w1.
Qed.

Lemma format_win_rates_res test_agents wins games w :
  format_win_rates test_agents wins games w
  = (if decide (games = 0 ∧ test_agents ≠ []) then Raise ZeroDivisionError
     else Ok (WinRates (win_rates test_agents wins games)), w).
Proof.
  unfold format_win_rates, win_rates.
  assert (G : ∀ data,
    for_each test_agents (λ data agent,
      let num_wins := wins !!! player agent in
      if decide (games = 0) then raise ZeroDivisionError
      else mret (data ++ [Z.of_nat num_wins # Pos.of_nat games])) data w
    = (if decide (games = 0 ∧ test_agents ≠ []) then Raise ZeroDivisionError
       else Ok (data ++ ((λ t, Z.of_nat (wins !!! player t) # Pos.of_nat games)
                           <$> test_agents)), w)).
  { destruct (decide (games = 0)) as [Hz|Hz].
    - destruct test_agents as [|t ts]; intros data.
      + simpl. rewrite decide_False by (by intros [_ ?]).
        by rewrite app_nil_r.
      + by rewrite decide_True.
    - induction test_agents as [|t ts IH]; intros data.
      + simpl. rewrite decide_False by (by intros [? _]).
        by rewrite app_nil_r.
      + simpl for_each. unfold mbind at 1, M_bind; simpl. rewrite IH.
        rewrite !decide_False by (by intros [? _]).
        by rewrite <-app_assoc. }
  unfold mbind, M_bind. rewrite G.
  by destruct (decide (games = 0 ∧ test_agents ≠ [])).
Qed.

Lemma summary_ok cpu_agents test_agents n aw alr w res w' :
  summary cpu_agents test_agents n (aw, alr) w = (Ok res, w') →
  res = (aw, alr) ∧ size aw = length test_agents ∧
  played w' = played w ∧
  stdout w' = stdout w ++
    [make_dividing_line test_agents;
     WinRates (win_rates test_agents aw (2 * n * length cpu_agents));
     format_loss_results alr] ∧
  (test_agents = [] ∨ 0 < 2 * n * length cpu_agents).
Proof.
  unfold summary, print, assert, mbind, M_bind, mret, M_ret.
  destruct (size aw =? length test_agents) eqn:Hsz; [|done].
  destruct (total aw <=? _); [|done].
  rewrite format_win_rates_res. case_decide as Hd; [done|].
  intros [= <- <-]. simpl. apply Nat.eqb_eq in Hsz.
  split_and!; [done..| |].
  - by rewrite <-!app_assoc.
  - destruct test_agents; [by left|]. right.
    destruct (decide (2 * n * length cpu_agents = 0)); [|lia].
    destruct Hd. by split.
Qed.

Lemma summary_raise cpu_agents test_agents n aw alr w e w' :
  summary cpu_agents test_agents n (aw, alr) w = (Raise e, w') →
  played w' = played w ∧
  stdout w' = stdout w ++ [make_dividing_line test_agents] ∧
  (e = AssertionError ∨
   e = ZeroDivisionError ∧ size aw = length test_agents).
Proof.
  unfold summary, print, assert, mbind, M_bind, mret, M_ret, raise.
  destruct (size aw =? length test_agents) eqn:Hsz;
    [|intros [= <- <-]; by split_and!; [..|left]].
  destruct (total aw <=? _); [|intros [= <- <-]; by split_and!; [..|left]].
  rewrite format_win_rates_res. case_decide as Hd; [|done].
  intros [= <- <-]. apply Nat.eqb_eq in Hsz. split_and!; [done..|by right].
Qed.

(** A run that returns has gone through all rounds and the summary. *)
Lemma run_fair_tournament_ok cpu_agents test_agents n w aw alr w' :
  run_fair_tournament cpu_agents test_agents n w = (Ok (aw, alr), w') →
  ∃ hist : list Round,
    (λ r, (r_idx r, r_cpu r)) <$> hist = imap pair cpu_agents ∧
    Forall (round_record test_agents n) hist ∧
    played_since w w' = hist ≫= r_log ∧
    printed_since w w' =
      format_header test_agents :: (hist ≫= round_lines test_agents n) ++
      [make_dividing_line test_agents;
       WinRates (win_rates test_agents aw (2 * n * length cpu_agents));
       format_loss_results alr] ∧
    (∀ p, aw !! p = count_entry (sum_list_with (credit p) hist)) ∧
    size aw = length test_agents ∧
    (test_agents = [] ∨ 0 < 2 * n * length cpu_agents).
Proof.
  rewrite run_fair_tournament_unfold. intros E.
  apply bind_inv in E as ([aw1 alr1] & w1 & E1 & E2).
  apply rows_loop_ok in E1 as (hist & Hpre & Hrec & Hp & Hs & Hw).
  apply summary_ok in E2 as ([= <- <-] & Hsz & Hp2 & Hs2 & Hpos).
  exists hist. unfold played_since, printed_since.
  rewrite Hp2, Hp, Hs2, Hs. simpl.
  rewrite drop_app_length.
  rewrite <-!app_assoc. rewrite drop_app_length. simpl.
  by split_and!.
Qed.

(** ** The keys of the tournament-wide counter *)

Lemma won_by_bind p (hist : list Round) :
  won_by p (hist ≫= r_log) = sum_list_with (λ r, won_by p (r_log r)) hist.
Proof.
  induction hist as [|r hist IH]; [done|].
  rewrite bind_cons, won_by_app, IH. done.
Qed.

Lemma credited_key p v test_agents n hist (aw : gmap P nat) :
  play_contract → Forall (round_record test_agents n) hist →
  (∀ p, aw !! p = count_entry (sum_list_with (credit p) hist)) →
  aw !! p = Some v →
  p ∈ player <$> test_agents ∧ 0 < v ∧ 0 < won_by p (hist ≫= r_log).
Proof.
  intros Hc Hrec Haw Hp. rewrite Haw in Hp.
  apply count_entry_Some in Hp as [-> Hpos].
  apply sum_list_with_pos in Hpos as Hr. destruct Hr as (r & Hr & Hcr).
  eapply Forall_forall in Hrec; [|done].
  destruct (credit_pos p _ _ _ Hc Hrec Hcr) as (Hin & g & o & Hg & Hwin).
  split_and!; [done..|].
  rewrite won_by_bind.
  eapply Nat.lt_le_trans; [|by apply (sum_list_with_in r)].
  destruct Hrec as (_ & _ & _ & _ & _ & _ & Hw).
  unfold credit in Hcr. case_decide; [lia|].
  by rewrite (count_entry_total _ _ _ (Hw p)) in Hcr.
Qed.

Lemma size_list_to_set_le (l : list P) :
  size (list_to_set l : gset P) ≤ length l.
Proof.
  induction l as [|x l IH]; [by rewrite list_to_set_nil, size_empty|].
  rewrite list_to_set_cons, size_union_alt, size_singleton. simpl.
  pose proof (subseteq_size (list_to_set l ∖ {[x]} : gset P)
                (list_to_set l)) as Hle.
  assert ((list_to_set l ∖ {[x]} : gset P) ⊆ list_to_set l) as Hsub
    by apply subseteq_difference_l, reflexivity.
  specialize (Hle Hsub). lia.
Qed.

Lemma size_list_to_set_NoDup (l : list P) :
  size (list_to_set l : gset P) = length l → NoDup l.
Proof.
  induction l as [|x l IH]; [constructor|].
  rewrite list_to_set_cons. simpl. intros Hsz.
  pose proof (size_list_to_set_le l) as Hle.
  assert (Hx : x ∉ l).
  { intros Hx. apply (elem_of_list_to_set (C:=gset P)) in Hx.
    assert (Heq : ({[x]} ∪ list_to_set l : gset P) = list_to_set l).
    { apply (subseteq_union_1_L (C:=gset P)).
      by apply singleton_subseteq_l. }
    rewrite Heq in Hsz. lia. }
  constructor; [done|]. apply IH.
  rewrite size_union, size_singleton in Hsz; [lia|].
  apply disjoint_singleton_l. by rewrite elem_of_list_to_set.
Qed.

(** A counter whose keys are among [l] and which has as many entries as
    [l] has elements: [l] has no duplicates and every element is a key. *)
Lemma full_counter (aw : gmap P nat) (l : list P) :
  (∀ p, is_Some (aw !! p) → p ∈ l) → size aw = length l →
  NoDup l ∧ ∀ p, p ∈ l → is_Some (aw !! p).
Proof.
  intros Hkeys Hsz.
  assert (Hsub : dom aw ⊆ (list_to_set l : gset P)).
  { intros p Hp%elem_of_dom. by apply elem_of_list_to_set, Hkeys. }
  pose proof (subseteq_size _ _ Hsub) as Hle.
  pose proof (size_list_to_set_le l) as Hle'.
  rewrite size_dom in Hle.
  split; [apply size_list_to_set_NoDup; lia|].
  intros p Hp. apply elem_of_dom.
  rewrite (set_subseteq_size_eq _ _ Hsub); [by apply elem_of_list_to_set|].
  rewrite size_dom. lia.
Qed.

Lemma hist_length (hist : list Round) (cpu_agents : list (Agent P)) :
  (λ r, (r_idx r, r_cpu r)) <$> hist = imap pair cpu_agents →
  length hist = length cpu_agents.
Proof.
  intros E. by rewrite <-(length_fmap (λ r, (r_idx r, r_cpu r))), E,
    length_imap.
Qed.

(** C6. Under the contract of [play], when [run_fair_tournament] returns,
    no player's tournament-wide win count exceeds
    [2 * num_matches * len(cpu_agents)], and the win rates it printed,
    last but one line, are each test agent's count over that number (which
    is positive unless there are no test agents). *)
Theorem tournament_win_bound (cpu_agents test_agents : list (Agent P))
    n w aw alr w' :
  play_contract →
  run_fair_tournament cpu_agents test_agents n w = (Ok (aw, alr), w') →
  (∀ p, aw !!! p ≤ 2 * n * length cpu_agents) ∧
  (∃ lines, printed_since w w' = lines ++
     [WinRates ((λ t, Z.of_nat (aw !!! player t)
                       # Pos.of_nat (2 * n * length cpu_agents))
                <$> test_agents);
      format_loss_results alr]) ∧
  (test_agents = [] ∨ 0 < 2 * n * length cpu_agents).
Proof.
  intros Hc E.
  apply run_fair_tournament_ok in E
    as (hist & Hpre & Hrec & Hp & Hs & Haw & Hsz & Hpos).
  split_and!; [|by eexists (_ :: _ ++ [_]); rewrite Hs; simpl;
                 rewrite <-app_assoc|done].
  assert (Hnd : NoDup (player <$> test_agents)).
  { eapply (full_counter aw); [|by rewrite length_fmap].
    intros p [v Hv]. by eapply credited_key. }
  intros p. rewrite (count_entry_total _ _ _ (Haw p)).
  rewrite <-(hist_length hist cpu_agents Hpre).
  replace (2 * n * length hist) with (length hist * (2 * n)) by lia.
  apply sum_list_with_bound. eapply Forall_impl; [exact Hrec|].
  intros r Hr. simpl. pose proof (credit_le p _ _ _ Hc Hr) as Hle.
  pose proof (filter_player_NoDup p test_agents Hnd). nia.
Qed.

(** ** Runs that raise *)

Lemma clean_bind test_agents n (hist : list Round) :
  Forall (round_record test_agents n) hist → clean (hist ≫= r_log).
Proof.
  induction 1 as [|r hist (_ & _ & _ & _ & Hc & _) _ IH]; [constructor|].
  rewrite bind_cons. by apply Forall_app.
Qed.

Lemma clean_lookup log i g e : clean log → log !! i ≠ Some (g, Raise e).
Proof.
  intros Hc Hi. eapply Forall_lookup_1 in Hc as [o Ho]; [|done]. done.
Qed.

(** A run raises either because a game raised, during some round, or in
    the summary, after all rounds. *)
Lemma run_fair_tournament_raise cpu_agents test_agents n w e w' :
  run_fair_tournament cpu_agents test_agents n w = (Raise e, w') →
  ∃ hist : list Round,
    Forall (round_record test_agents n) hist ∧
    ((∃ oks g idx (c : Agent P),
        played_since w w' = (hist ≫= r_log) ++ oks ++ [(g, Raise e)] ∧
        clean oks ∧
        printed_since w w' =
          format_header test_agents :: (hist ≫= round_lines test_agents n)
          ++ [RowLabel (idx + 1) (name c)]) ∨
     (played_since w w' = hist ≫= r_log ∧
      printed_since w w' =
        format_header test_agents :: (hist ≫= round_lines test_agents n)
        ++ [make_dividing_line test_agents] ∧
      ∃ aw : gmap P nat,
        (∀ p, aw !! p = count_entry (sum_list_with (credit p) hist)) ∧
        (e = AssertionError ∨
         e = ZeroDivisionError ∧ size aw = length test_agents))).
Proof.
  rewrite run_fair_tournament_unfold. unfold mbind, M_bind.
  destruct (for_each _ _ _ _) as [[[aw alr]|e1] w1] eqn:E1.
  - intros E2. apply rows_loop_ok in E1 as (hist & Hpre & Hrec & Hp & Hs & Hw).
    apply summary_raise in E2 as (Hp2 & Hs2 & He).
    exists hist. split; [done|]. right.
    unfold played_since, printed_since. rewrite Hp2, Hp, Hs2, Hs. simpl.
    rewrite drop_app_length, <-!app_assoc, drop_app_length.
    split_and!; [done..|]. by exists aw.
  - intros [= <- <-].
    apply for_each_raise in E1
      as (pre & [idx c] & post & [aw alr] & w2 & _ & E1 & E2).
    apply rows_loop_ok in E1 as (hist & Hpre & Hrec & Hp & Hs & Hw).
    apply fair_round_row_raise, play_fair_round_raise in E2
      as (oks & g & Hp2 & Hc & _ & Hs2).
    simpl in Hp2, Hs2.
    exists hist. split; [done|]. left. exists oks, g, idx, c.
    unfold played_since, printed_since. rewrite Hp2, Hp, Hs2, Hs. simpl.
    rewrite <-!app_assoc, !drop_app_length. done.
Qed.

(** C9. Under the contract of [play]: when [run_fair_tournament] returns,
    the tournament-wide counter has one entry per test agent, the test
    agents' players are pairwise different and each has won at least one
    game of the run; and when some test agent has won no game of the run,
    the run raises, an AssertionError if no game raised. *)
Theorem all_test_agents_must_win (cpu_agents test_agents : list (Agent P))
    n w :
  play_contract →
  let r := run_fair_tournament cpu_agents test_agents n w in
  (∀ aw alr, r.1 = Ok (aw, alr) →
     size aw = length test_agents ∧ NoDup (player <$> test_agents) ∧
     ∀ t, t ∈ test_agents →
       0 < aw !!! player t ∧ 0 < won_by (player t) (played_since w r.2)) ∧
  (∀ t, t ∈ test_agents → won_by (player t) (played_since w r.2) = 0 →
     ∃ e, r.1 = Raise e ∧
          (clean (played_since w r.2) → e = AssertionError)).
Proof.
  intros Hc r.
  assert (Hok : ∀ aw alr, r.1 = Ok (aw, alr) →
     size aw = length test_agents ∧ NoDup (player <$> test_agents) ∧
     ∀ t, t ∈ test_agents →
       0 < aw !!! player t ∧ 0 < won_by (player t) (played_since w r.2)).
  { intros aw alr Hr.
    assert (E : run_fair_tournament cpu_agents test_agents n w
                = (Ok (aw, alr), r.2)).
    { subst r. by destruct (run_fair_tournament _ _ _ _) as [? ?];
        simpl in *; subst. }
    apply run_fair_tournament_ok in E
      as (hist & Hpre & Hrec & Hp & Hs & Haw & Hsz & Hpos).
    assert (Hkeys : ∀ p, is_Some (aw !! p) → p ∈ player <$> test_agents).
    { intros p [v Hv]. by eapply credited_key. }
    destruct (full_counter aw (player <$> test_agents) Hkeys) as [Hnd Hall];
      [by rewrite length_fmap|].
    split_and!; [done..|]. intros t Ht.
    destruct (Hall (player t)) as [v Hv]; [by apply list_elem_of_fmap_2|].
    destruct (credited_key _ _ _ _ _ _ Hc Hrec Haw Hv) as (_ & Hv0 & Hwon).
    rewrite Hp. split; [|done].
    by rewrite lookup_total_alt, Hv. }
  split; [done|]. intros t Ht Hzero.
  destruct (run_fair_tournament cpu_agents test_agents n w)
    as [[[aw alr]|e] w'] eqn:E; subst r; simpl in *.
  - destruct (Hok aw alr eq_refl) as (_ & _ & Hall).
    destruct (Hall t Ht) as [_ Hpos]. lia.
  - exists e. split; [done|]. intros Hclean.
    apply run_fair_tournament_raise in E
      as (hist & Hrec & [(oks & g & idx & c & Hp & _ & _)
                        |(Hp & _ & aw & Haw & He)]).
    + exfalso. rewrite Hp in Hclean.
      apply (clean_lookup _ (length (hist ≫= r_log) + length oks) g e Hclean).
      rewrite lookup_app_r by lia. rewrite lookup_app_r by lia.
      by replace (_ - _ - _) with 0 by lia.
    + destruct He as [->|[-> Hsz]]; [done|]. exfalso.
      assert (Hkeys : ∀ p, is_Some (aw !! p) → p ∈ player <$> test_agents).
      { intros p [v Hv]. by eapply credited_key. }
      destruct (full_counter aw (player <$> test_agents) Hkeys) as [_ Hall];
        [by rewrite length_fmap|].
      destruct (Hall (player t)) as [v Hv]; [by apply list_elem_of_fmap_2|].
      destruct (credited_key _ _ _ _ _ _ Hc Hrec Haw Hv) as (_ & _ & Hwon).
      rewrite Hp in Hzero. lia.
Qed.

Lemma raise_is_last (log : list (Board P * Res (Outcome P))) g e i g' e' :
  clean log → (log ++ [(g, Raise e)]) !! i = Some (g', Raise e') →
  i = length log ∧ g' = g ∧ e' = e.
Proof.
  intros Hc Hi. destruct (decide (i < length log)) as [Hlt|Hge].
  - rewrite lookup_app_l in Hi by done. by apply clean_lookup in Hi.
  - rewrite lookup_app_r in Hi by lia.
    apply list_lookup_singleton_Some in Hi as [Hi [= -> ->]].
    split_and!; [lia|done..].
Qed.

Lemma row_lines_bind test_agents n (hist : list Round) :
  Forall (λ l, row_line l = true) (hist ≫= round_lines test_agents n).
Proof.
  induction hist as [|r hist IH]; [constructor|].
  rewrite bind_cons. apply Forall_app. split; [|done].
  by repeat constructor.
Qed.

Lemma genuine_last (log : list (Board P * Res (Outcome P))) g res :
  genuine (log ++ [(g, res)]) → ∃ rg rg', play g rg = (res, rg').
Proof.
  intros [_ Hg]%Forall_app. by apply Forall_cons in Hg as [Hg _].
Qed.

Lemma imap_pair_split {A} (l : list A) (pre : list (nat * A)) idx c post :
  imap pair l = pre ++ (idx, c) :: post → idx = length pre.
Proof.
  intros E.
  assert (Hi : imap pair l !! length pre = Some (idx, c))
    by by rewrite E, list_lookup_middle.
  rewrite list_lookup_imap in Hi.
  destruct (l !! length pre) as [c'|]; [|done]. by injection Hi as -> _.
Qed.

(** A run that raises in the loop over the rounds: the rounds finished
    before, the round that raised, and what was played and printed. *)
Lemma run_fair_tournament_raise_rows cpu_agents test_agents n w e w' :
  run_fair_tournament cpu_agents test_agents n w = (Raise e, w') →
  ∃ hist : list Round,
    Forall (round_record test_agents n) hist ∧
    ((∃ oks g (c : Agent P) post,
        imap pair cpu_agents
        = ((λ r, (r_idx r, r_cpu r)) <$> hist) ++ (length hist, c) :: post ∧
        played_since w w' = (hist ≫= r_log) ++ oks ++ [(g, Raise e)] ∧
        clean oks ∧ genuine (oks ++ [(g, Raise e)]) ∧
        printed_since w w' =
          format_header test_agents :: (hist ≫= round_lines test_agents n)
          ++ [RowLabel (length hist + 1) (name c)]) ∨
     played_since w w' = hist ≫= r_log).
Proof.
  rewrite run_fair_tournament_unfold. unfold mbind, M_bind.
  destruct (for_each _ _ _ _) as [[[aw alr]|e1] w1] eqn:E1.
  - intros E2. apply rows_loop_ok in E1 as (hist & Hpre & Hrec & Hp & Hs & Hw).
    apply summary_raise in E2 as (Hp2 & Hs2 & He).
    exists hist. split; [done|]. right.
    unfold played_since. rewrite Hp2, Hp. simpl.
    by rewrite drop_app_length.
  - intros [= <- <-].
    apply for_each_raise in E1
      as (pre & [idx c] & post & [aw alr] & w2 & Hsplit & E1 & E2).
    apply rows_loop_ok in E1 as (hist & Hpre & Hrec & Hp & Hs & Hw).
    apply fair_round_row_raise, play_fair_round_raise in E2
      as (oks & g & Hp2 & Hc & Hgen & Hs2).
    simpl in Hp2, Hs2.
    assert (Hidx : idx = length hist).
    { rewrite (imap_pair_split _ _ _ _ _ Hsplit), <-Hpre.
      by rewrite length_fmap. }
    subst idx pre.
    exists hist. split; [done|]. left. exists oks, g, c, post.
    unfold played_since, printed_since. rewrite Hp2, Hp, Hs2, Hs. simpl.
    rewrite <-!app_assoc, !drop_app_length. done.
Qed.

(** C8, amended. An exception raised by a game is the last thing a round
    and a tournament do: it is what [play] raised on that game, the game
    that raised is the last one played, and the call raises the same
    exception, so it returns no counters.  A round prints nothing.  Of the
    tournament exactly this is printed: the header; for each round finished
    before, in the order of [cpu_agents], its row label and the results
    of its own games; and the row label of the round that raised, the next
    of [cpu_agents].  So the rows of the finished rounds are printed, and
    no result of the failing round, dividing line, win rates or loss
    results. *)
Theorem play_failure_aborts :
  (∀ (cpu_agent : Agent P) test_agents n w i g e,
     let r := play_fair_round cpu_agent test_agents n w in
     played_since w r.2 !! i = Some (g, Raise e) →
     r.1 = Raise e ∧ length (played_since w r.2) = S i ∧
     (∃ rg rg', play g rg = (Raise e, rg')) ∧
     printed_since w r.2 = []) ∧
  (∀ (cpu_agents test_agents : list (Agent P)) n w i g e,
     let r := run_fair_tournament cpu_agents test_agents n w in
     played_since w r.2 !! i = Some (g, Raise e) →
     r.1 = Raise e ∧ length (played_since w r.2) = S i ∧
     (∃ rg rg', play g rg = (Raise e, rg')) ∧
     (∃ (hist : list Round) oks (c : Agent P) post,
        imap pair cpu_agents
        = ((λ r, (r_idx r, r_cpu r)) <$> hist) ++ (length hist, c) :: post ∧
        Forall (round_record test_agents n) hist ∧
        played_since w r.2 = (hist ≫= r_log) ++ oks ++ [(g, Raise e)] ∧
        clean oks ∧
        printed_since w r.2
        = format_header test_agents :: (hist ≫= round_lines test_agents n)
          ++ [RowLabel (length hist + 1) (name c)]) ∧
     ∃ lines, printed_since w r.2 = format_header test_agents :: lines ∧
              Forall (λ l, row_line l = true) lines).
Proof.
  split.
  - intros c test_agents n w i g e r. subst r.
    destruct (play_fair_round c test_agents n w) as [[[wc lr]|e'] w'] eqn:E;
      simpl.
    + apply play_fair_round_ok in E
        as (oms & _ & _ & new & Hp & _ & _ & Hc & _).
      simpl in Hp. unfold played_since. rewrite Hp, drop_app_length.
      intros Hi. by apply clean_lookup in Hi.
    + apply play_fair_round_raise in E as (oks & g' & Hp & Hc & Hgen & Hs).
      unfold played_since, printed_since.
      rewrite Hp, Hs, drop_app_length, drop_all.
      intros (-> & -> & ->)%raise_is_last; [|done].
      rewrite length_app. simpl.
      split_and!; [done|lia|by eapply genuine_last|done].
  - intros cpu_agents test_agents n w i g e r. subst r.
    destruct (run_fair_tournament cpu_agents test_agents n w)
      as [[[aw alr]|e'] w'] eqn:E; simpl.
    + apply run_fair_tournament_ok in E as (hist & _ & Hrec & Hp & _).
      rewrite Hp. intros Hi.
      by apply (clean_lookup _ _ _ _ (clean_bind _ _ _ Hrec)) in Hi.
    + apply run_fair_tournament_raise_rows in E
        as (hist & Hrec & [(oks & g' & c & post & Hsplit & Hp & Hc & Hgen & Hs)
                          |Hp]).
      * rewrite Hp, Hs, app_assoc.
        intros (-> & -> & ->)%raise_is_last;
          [|apply Forall_app; split; [by eapply clean_bind | done]].
        rewrite length_app. simpl.
        split_and!; [done|lia|by eapply genuine_last| |].
        -- exists hist, oks, c, post. by rewrite <-app_assoc.
        -- eexists. split; [done|]. apply Forall_app.
           split; [apply row_lines_bind | by repeat constructor].
      * rewrite Hp. intros Hi.
        by apply (clean_lookup _ _ _ _ (clean_bind _ _ _ Hrec)) in Hi.
Qed.

(** ** Anchors and the tournament-wide counter *)

Lemma row_results_bind test_agents n (hist : list Round) :
  row_results (hist ≫= round_lines test_agents n)
  = (λ r, (λ agent, (r_wins r !!! player agent,
                     (Z.of_nat (2 * n)
                      - Z.of_nat (r_wins r !!! player agent))%Z))
            <$> test_agents) <$> hist.
Proof.
  induction hist as [|r hist IH]; [done|].
  rewrite bind_cons, fmap_cons, <-IH. done.
Qed.

Lemma printed_rows_credit test_agents n (hist : list Round) i t :
  test_agents !! i = Some t →
  Forall (λ r, player t ≠ player (r_cpu r)) hist →
  sum_list_with (λ row, (row !!! i).1)
    (row_results (hist ≫= round_lines test_agents n))
  = sum_list_with (credit (player t)) hist.
Proof.
  intros Ht Hne. rewrite row_results_bind.
  induction Hne as [|r hist Hr _ IH]; [done|].
  rewrite fmap_cons.
  change (sum_list_with ?f (?x :: ?l)) with (f x + sum_list_with f l).
  rewrite IH. f_equal.
  unfold credit. rewrite decide_False by done.
  erewrite list_lookup_total_correct; [|by rewrite list_lookup_fmap, Ht].
  done.
Qed.

(** C7, amended. Under the contract of [play] and when no anchor's player
    is also a test agent's: in every state the loop over the rounds
    reaches, the tournament-wide win counter has no key of any anchor, all
    its keys are test agents' players, and each test agent's count is the
    sum of the wins printed for it in the rows of the rounds played. *)
Theorem anchors_never_counted (cpu_agents test_agents : list (Agent P))
    n w k aw alr w' :
  play_contract →
  (∀ c t, c ∈ cpu_agents → t ∈ test_agents → player c ≠ player t) →
  for_each (take k (imap pair cpu_agents)) (fair_round_row test_agents n)
    (∅, ∅) w = (Ok (aw, alr), w') →
  (∀ c, c ∈ cpu_agents → aw !! player c = None) ∧
  (∀ p, is_Some (aw !! p) → p ∈ player <$> test_agents) ∧
  (∀ i t, test_agents !! i = Some t →
     aw !!! player t
     = sum_list_with (λ row, (row !!! i).1)
         (row_results (printed_since w w'))).
Proof.
  intros Hc Hdis E.
  apply rows_loop_ok in E as (hist & Hpre & Hrec & Hp & Hs & Haw).
  simpl in Haw.
  assert (Hkeys : ∀ p, is_Some (aw !! p) → p ∈ player <$> test_agents).
  { intros p [v Hv]. by eapply credited_key. }
  split_and!; [|done|].
  - intros c Hcin. destruct (aw !! player c) as [v|] eqn:Hv; [|done].
    exfalso. assert (Hin : player c ∈ player <$> test_agents)
      by (apply Hkeys; by eexists).
    apply list_elem_of_fmap in Hin as (t & Ht & Hin).
    by apply (Hdis c t).
  - intros i t Ht. rewrite (count_entry_total _ _ _ (Haw (player t))).
    unfold printed_since. rewrite Hs, drop_app_length.
    symmetry. apply printed_rows_credit; [done|].
    apply Forall_forall. intros r Hr Heq.
    assert (Hin : (r_idx r, r_cpu r) ∈ take k (imap pair cpu_agents)).
    { rewrite <-Hpre. by apply (list_elem_of_fmap_2 (λ r, (r_idx r, r_cpu r))). }
    apply subseteq_take, elem_of_lookup_imap in Hin
      as (j & c & [= _ Hcr] & Hj).
    apply (Hdis c t); [by eapply list_elem_of_lookup_2
                      |by eapply list_elem_of_lookup_2|].
    by rewrite <-Hcr.
Qed.

(** ** More on the sampler *)

Lemma cells_no_row w : cells w 0 = [].
Proof. unfold cells. induction w as [|w IH]; [done|]. by rewrite seq_S, bind_app, IH. Qed.

Lemma cells_no_column h : cells 0 h = [].
Proof. done. Qed.

Lemma choice_empty {A} w : choice ([] : list A) w = (Raise IndexError, w).
Proof. done. Qed.

Lemma choice_at {A} (l : list A) i x w :
  l !! i = Some x → tape (rng w) (pos (rng w)) = i →
  choice l w = (Ok x, drawn 1 w).
Proof.
  intros Hi Ht. unfold choice, draw. rewrite Ht.
  rewrite Nat.mod_small by by eapply lookup_lt_Some. by rewrite Hi.
Qed.

(** The sampler's run, given what its two draws choose. *)
Lemma sampler_run h w wd m1 m2 :
  let b := new_board ""%string ""%string w h in
  m1 ∈ get_legal_moves b →
  choice (get_legal_moves b) wd = (Ok m1, drawn 1 wd) →
  m2 ∈ get_legal_moves (place b m1) →
  choice (get_legal_moves (place b m1)) (drawn 1 wd) = (Ok m2, drawn 2 wd) →
  get_random_starting_positions h w wd = (Ok [m1; m2], drawn 2 wd).
Proof.
  intros b Hm1 E1 Hm2 E2. unfold get_random_starting_positions. fold b.
  rewrite (bind_ok _ _ wd (place (place b m1) m2, [m1; m2]) (drawn 2 wd));
    [done|].
  simpl for_each.
  rewrite (bind_ok _ _ wd (place b m1, [m1]) (drawn 1 wd)).
  - rewrite (bind_ok _ _ _ (place (place b m1) m2, [m1; m2]) (drawn 2 wd));
      [done|].
    rewrite (bind_ok _ _ _ _ _ E2).
    unfold lift. rewrite (bind_ok _ _ _ (place (place b m1) m2)
                            (drawn 2 wd)); [done|].
    by rewrite (apply_move_legal _ m2 Hm2).
  - rewrite (bind_ok _ _ _ _ _ E1).
    rewrite (bind_ok _ _ _ (place b m1) (drawn 1 wd)); [done|].
    unfold lift. by rewrite (apply_move_legal b m1 Hm1).
Qed.

(** X1. On a board of at least two cells the sampler returns two
    different cells of the board, reads two draws and neither prints nor
    plays. *)
Theorem sampler_two_distinct_cells h w wd :
  2 ≤ h * w →
  ∃ r1 c1 r2 c2,
    get_random_starting_positions h w wd
    = (Ok [(r1, c1); (r2, c2)], drawn 2 wd) ∧
    r1 < h ∧ c1 < w ∧ r2 < h ∧ c2 < w ∧ (r1, c1) ≠ (r2, c2) ∧
    stdout (drawn 2 wd) = stdout wd ∧ played (drawn 2 wd) = played wd ∧
    pos (rng (drawn 2 wd)) = 2 + pos (rng wd).
Proof.
  intros Hwh.
  destruct (get_random_starting_positions_ok h w wd Hwh) as (om & Hom & E).
  destruct om as [|[r1 c1] [|[r2 c2] [|]]]; try done.
  simpl in Hom. apply bool_decide_eq_true in Hom as (H1 & H2 & Hne).
  apply elem_of_cells in H1, H2.
  exists r1, c1, r2, c2. by split_and!; try lia.
Qed.

(** X2. On a board of fewer than two cells the sampler raises IndexError:
    at once when the board has no cell, after one draw when it has one. *)
Theorem sampler_degenerate_board h w wd :
  h * w < 2 →
  get_random_starting_positions h w wd = (Raise IndexError, drawn (h * w) wd).
Proof.
  intros Hwh. unfold get_random_starting_positions.
  destruct (decide (h * w = 0)) as [Hz|Hnz].
  - rewrite Hz, drawn_0.
    assert (Hc : cells w h = []).
    { destruct h; [apply cells_no_row|]. destruct w; [done | lia]. }
    simpl. unfold mbind at 1 2 3, M_bind.
    unfold get_legal_moves, get_blank_spaces; simpl. rewrite Hc. done.
  - destruct h as [|[|h]]; [lia| |destruct w; simpl in *; lia].
    assert (w = 1) as -> by lia. done.
Qed.

(** X3. Every pair of different cells of the board is an opening the
    sampler can return: some tape of draws makes it return that pair. *)
Theorem sampler_reaches_every_pair h w m1 m2 out log :
  m1 ∈ cells w h → m2 ∈ cells w h → m1 ≠ m2 →
  ∃ tp, get_random_starting_positions h w (mkWorld (mkRng tp 0) out log)
        = (Ok [m1; m2], mkWorld (mkRng tp 2) out log).
Proof.
  intros H1 H2 Hne.
  set (b := new_board ""%string ""%string w h : Board string).
  assert (L1 : m1 ∈ get_legal_moves b).
  { apply legal_not_moved; [done|]. split; [done | apply not_elem_of_nil]. }
  assert (L2 : m2 ∈ get_legal_moves (place b m1)).
  { apply legal_not_moved; [done|]. split; [done|].
    intros ?%list_elem_of_singleton. by apply Hne. }
  apply list_elem_of_lookup in L1 as Hi. destruct Hi as [i Hi].
  apply list_elem_of_lookup in L2 as Hj. destruct Hj as [j Hj].
  exists (λ n, if decide (n = 0) then i else j).
  apply (sampler_run h w (mkWorld (mkRng _ 0) out log) m1 m2 L1).
  - by apply (choice_at _ i).
  - done.
  - by apply (choice_at _ j).
Qed.

(** ** More on prepare_fair_match *)

Lemma apply_move_inv {Q} (b b' : Board Q) m :
  apply_move b m = Ok b' → b' = place b m ∧ m ∈ get_legal_moves b.
Proof. unfold apply_move. case_decide; [by intros [= <-] | done]. Qed.

Lemma for_each_cons {A S} x (l : list A) (body : S → A → M S) s :
  for_each (x :: l) body s = (body s x ≫= for_each l body).
Proof. done. Qed.

Lemma mapM_lift_two_inv {A B} (g : A → Res B) x y wd bs wd' :
  mapM (λ a, lift (g a)) [x; y] wd = (Ok bs, wd') →
  ∃ x' y', g x = Ok x' ∧ g y = Ok y' ∧ bs = [x'; y'] ∧ wd' = wd.
Proof.
  simpl. unfold mbind, M_bind, lift, mret, M_ret.
  destruct (g x) as [x'|e]; [|done]. destruct (g y) as [y'|e]; [|done].
  intros [= <- <-]. by exists x', y'.
Qed.

Lemma apply_opening_inv om (x y : Board P) wd bs wd' :
  apply_opening om [x; y] wd = (Ok bs, wd') →
  bs = [after_opening x om; after_opening y om] ∧ wd' = wd.
Proof.
  unfold apply_opening. revert x y wd.
  induction om as [|m om IH]; intros x y wd E.
  - by injection E as <- <-.
  - simpl in E. apply bind_inv in E as (bs1 & w1 & E1 & E2).
    apply (mapM_lift_two_inv (λ b, apply_move b m)) in E1
      as (x' & y' & [-> _]%apply_move_inv & [-> _]%apply_move_inv & -> & ->).
    by apply IH in E2.
Qed.

Lemma after_opening_shape {Q} (b : Board Q) om :
  width (after_opening b om) = width b ∧
  height (after_opening b om) = height b ∧
  occupied (after_opening b om) = reverse om ++ occupied b ∧
  active_player (after_opening b om)
  = (if Nat.even (length om) then active_player b else inactive_player b) ∧
  inactive_player (after_opening b om)
  = (if Nat.even (length om) then inactive_player b else active_player b).
Proof.
  revert b. induction om as [|m om IH]; intros b; [done|].
  destruct (IH (place b m)) as (Hw & Hh & Ho & Ha & Hi).
  change (after_opening b (m :: om)) with (after_opening (place b m) om).
  rewrite Hw, Hh, Ho, Ha, Hi, reverse_cons, <-app_assoc.
  change (length (m :: om)) with (S (length om)).
  rewrite Nat.even_succ, <-Nat.negb_even.
  split_and!; try done; by destruct (Nat.even (length om)).
Qed.

Lemma sampler_two_moves h w wd om wd' :
  get_random_starting_positions h w wd = (Ok om, wd') → length om = 2.
Proof.
  unfold get_random_starting_positions. intros E.
  apply bind_inv in E as ([b2 ms] & w2 & E & [= <- _]).
  simpl in E. apply bind_inv in E as ([b1 ms1] & w1 & E1 & E).
  apply bind_inv in E1 as (m1 & u1 & _ & E1).
  apply bind_inv in E1 as (b1' & u2 & _ & [= _ <- _]).
  apply bind_inv in E as ([b3 ms2] & u3 & E2 & [= _ <- _]).
  apply bind_inv in E2 as (m2 & u4 & _ & E2).
  by apply bind_inv in E2 as (b4 & u5 & _ & [= _ <- _]).
Qed.

(** X4. Whatever the opening, of any length, supplied or drawn: when
    [prepare_fair_match] returns, it returns exactly two boards of the
    size asked for, both with every move of the returned opening applied
    in order and with equal blank spaces; the two players have swapped
    roles between the boards; [player1] is to move in boards[0] when the
    number of opening moves is even and [player2] when it is odd. *)
Theorem prepare_fair_match_any_opening (p1 p2 : P) o w h wd bs om wd' :
  prepare_fair_match p1 p2 o w h wd = (Ok (bs, om), wd') →
  ∃ b0 b1,
    bs = [b0; b1] ∧
    width b0 = w ∧ height b0 = h ∧ width b1 = w ∧ height b1 = h ∧
    opening_of b0 = om ∧ opening_of b1 = om ∧
    get_blank_spaces b0 = get_blank_spaces b1 ∧
    active_player b0 = inactive_player b1 ∧
    inactive_player b0 = active_player b1 ∧
    active_player b0 = (if Nat.even (length om) then p1 else p2) ∧
    (if falsy o then length om = 2 else o = Some om).
Proof.
  rewrite prepare_fair_match_unfold. intros E.
  apply bind_inv in E as (om1 & w1 & E1 & E).
  apply bind_inv in E as (bs1 & w2 & E2 & [= <- <- <-]).
  apply apply_opening_inv in E2 as [-> ->].
  eexists _, _. split; [done|].
  destruct (after_opening_shape (new_board p1 p2 w h) om1)
    as (Hw0 & Hh0 & Ho0 & Ha0 & Hi0).
  destruct (after_opening_shape (new_board p2 p1 w h) om1)
    as (Hw1 & Hh1 & Ho1 & Ha1 & Hi1).
  simpl in *. rewrite app_nil_r in Ho0, Ho1.
  split_and!; try done.
  - unfold opening_of. by rewrite Ho0, reverse_involutive.
  - unfold opening_of. by rewrite Ho1, reverse_involutive.
  - apply blank_spaces_geometry; congruence.
  - rewrite Ha0, Hi1. by destruct (Nat.even _).
  - rewrite Hi0, Ha1. by destruct (Nat.even _).
  - destruct (falsy o) eqn:Ho.
    + by eapply sampler_two_moves.
    + destruct o as [[|m l]|]; try done. by injection E1 as <- <-.
Qed.

(** ** More on prepare_same_fair_matches *)

Lemma filter_not_elem_ext (l k : list Move) x :
  x ∉ l → filter (λ m, m ∉ x :: k) l = filter (λ m, m ∉ k) l.
Proof.
  induction l as [|y l IH]; [done|].
  intros [Hne Hnin]%not_elem_of_cons. rewrite !filter_cons, IH by done.
  destruct (decide (y ∉ k)) as [Hy|Hy].
  - rewrite decide_True; [done|]. apply not_elem_of_cons. by split.
  - rewrite decide_False; [done|]. intros [_ ?]%not_elem_of_cons. done.
Qed.

Lemma length_filter_remove (l k : list Move) x :
  NoDup l → x ∈ l → x ∉ k →
  S (length (filter (λ m, m ∉ x :: k) l)) = length (filter (λ m, m ∉ k) l).
Proof.
  intros Hnd Hx Hk. induction Hnd as [|y l Hy Hnd IH]; [by apply elem_of_nil in Hx|].
  rewrite !filter_cons. apply elem_of_cons in Hx as [<-|Hx].
  - rewrite decide_False by (intros Hn; apply Hn, list_elem_of_here).
    rewrite decide_True by done. simpl. by rewrite filter_not_elem_ext.
  - assert (Hne : y ≠ x) by (by intros ->).
    destruct (decide (y ∉ k)) as [Hyk|Hyk].
    + rewrite decide_True by (apply not_elem_of_cons; by split).
      simpl. by rewrite IH.
    + rewrite decide_False by (by intros [_ ?]%not_elem_of_cons).
      by apply IH.
Qed.

Lemma NoDup_cells_7 : NoDup (cells 7 7).
Proof. apply (bool_decide_unpack _). vm_compute. exact I. Qed.

(** A 7 x 7 board on which two different cells are occupied has 47 blank
    spaces. *)
Lemma blank_spaces_after_pair {Q} (g : Board Q) m1 m2 :
  width g = 7 → height g = 7 → occupied g = [m2; m1] →
  m1 ∈ cells 7 7 → m2 ∈ cells 7 7 → m1 ≠ m2 →
  length (get_blank_spaces g) = 47.
Proof.
  intros Hw Hh Ho H1 H2 Hne. unfold get_blank_spaces. rewrite Hw, Hh, Ho.
  assert (m2 ∉ [m1]) as Hn by (intros ?%list_elem_of_singleton; by apply Hne).
  pose proof (length_filter_remove (cells 7 7) [m1] m2 NoDup_cells_7 H2 Hn)
    as L2.
  pose proof (length_filter_remove (cells 7 7) [] m1 NoDup_cells_7 H1
                (not_elem_of_nil _)) as L1.
  assert (L0 : length (filter (λ m : Move, m ∉ []) (cells 7 7)) = 49)
    by (vm_compute; reflexivity).
  lia.
Qed.

(** X6. With no opponent the generator yields nothing and the round
    returns empty counters, yet the openings have been drawn: [2 *
    num_matches] draws are gone. *)
Theorem no_opponents_still_draws (agent : Agent P) n wd :
  game_sequences agent [] n wd = (Ok [], drawn (2 * n) wd) ∧
  play_fair_round agent [] n wd = (Ok (∅, ∅), drawn (2 * n) wd).
Proof.
  split.
  - by destruct (game_sequences_ok agent [] n wd) as (oms & _ & _ & _ & ->).
  - destruct (play_fair_round_unfold agent [] n wd) as (oms & _ & _ & ->).
    unfold round_games. simpl for_each.
    unfold mbind, M_bind, mret, M_ret.
    assert ((total (∅ : gmap P nat)
             =? 2 * n * length ([] : list (Agent P))) = true) as ->; [|done].
    unfold total. rewrite map_fold_empty. simpl. by rewrite Nat.mul_0_r.
Qed.

(** X7. With [num_matches = 0] the generator yields one empty list per
    opponent and the state is untouched: nothing is drawn. *)
Theorem zero_matches_empty_sequences (agent : Agent P) opponents wd :
  game_sequences agent opponents 0 wd
  = (Ok (replicate (length opponents) []), wd).
Proof.
  destruct (game_sequences_ok agent opponents 0 wd)
    as (oms & Hlen & _ & _ & ->).
  destruct oms; [|done]. change (2 * 0) with 0. rewrite drawn_0.
  do 2 f_equal.
  induction opponents as [|opp opps IH]; [done|].
  rewrite fmap_cons, IH. done.
Qed.

(** X8. Once the openings are drawn, every step of the generator can be
    run at any state, does not change it and never raises (its assertion
    on the number of games holds): it yields [2 * num_matches] games, each
    a 7 x 7 board with two occupied cells and 47 blank spaces, between the
    anchor and the opponent of that step. *)
Theorem generator_steps_yield (agent : Agent P) opponents n wd :
  ∃ gen,
    prepare_same_fair_matches agent opponents n wd
    = (Ok gen, drawn (2 * n) wd) ∧
    length gen = length opponents ∧
    ∀ i next opp w,
      gen !! i = Some next → opponents !! i = Some opp →
      ∃ games,
        next w = (Ok games, w) ∧ length games = 2 * n ∧
        Forall (λ g, width g = 7 ∧ height g = 7 ∧
                     length (occupied g) = 2 ∧
                     length (get_blank_spaces g) = 47 ∧
                     pair_ids g = {[player agent; player opp]}) games.
Proof.
  destruct (prepare_same_fair_matches_ok agent opponents n wd)
    as (oms & gen & Hlen & Hall & _ & E & Hgen).
  exists gen. split_and!; [done | by eapply Forall2_length|].
  intros i next opp w Hi Ho.
  destruct (Forall2_lookup_l _ _ _ _ _ Hgen Hi) as (opp' & Ho' & Hstep).
  rewrite Ho in Ho'. injection Ho' as <-.
  exists (schedule agent opp oms). split_and!; [done| |].
  - by rewrite length_schedule, Hlen.
  - apply Forall_forall. intros g [j Hg]%list_elem_of_lookup.
    apply schedule_lookup_inv in Hg as (m1 & m2 & Hom & Hocc & Hw & Hh & Hp);
      [|done].
    assert (Hl : legal_opening 7 7 [m1; m2] = true).
    { eapply Forall_forall in Hall; [done|]. by eapply list_elem_of_lookup_2. }
    simpl in Hl. apply bool_decide_eq_true in Hl as (H1 & H2 & Hne).
    split_and!; [done|done|by rewrite Hocc| |done].
    by eapply blank_spaces_after_pair.
Qed.

(** ** More on play_fair_round *)

Lemma play_fair_round_unfold_oms cpu_agent test_agents n w :
  ∃ oms, length oms = n ∧ Forall (λ om, legal_opening 7 7 om = true) oms ∧
    game_sequences cpu_agent test_agents n w
    = (Ok ((λ opp, schedule cpu_agent opp oms) <$> test_agents),
       drawn (2 * n) w) ∧
    play_fair_round cpu_agent test_agents n w
    = ('(win_counts, loss_reason_counts) ←
         for_each (round_games cpu_agent test_agents oms) tally (∅, ∅);
       assert (total win_counts =? 2 * n * length test_agents);;
       mret (win_counts, loss_reason_counts)) (drawn (2 * n) w).
Proof.
  destruct (prepare_same_fair_matches_ok cpu_agent test_agents n w)
    as (oms & gen & Hlen & Hall & _ & E & Hgen).
  exists oms. split_and!; [done..| |].
  - unfold game_sequences. rewrite (bind_ok _ _ _ _ _ E).
    by rewrite (for_gen_collect gen test_agents _ [] _ Hgen).
  - unfold play_fair_round. rewrite (bind_ok _ _ _ _ _ E).
    apply bind_ext; [|done].
    apply (for_gen_flatten gen test_agents _ tally _ _ Hgen).
Qed.

Lemma round_games_concat cpu_agent test_agents oms :
  round_games cpu_agent test_agents oms
  = concat ((λ opp, schedule cpu_agent opp oms) <$> test_agents).
Proof.
  unfold round_games. induction test_agents as [|t ts IH]; [done|].
  by rewrite bind_cons, fmap_cons, concat_cons, IH.
Qed.

(** X9. A round raises only what a game raised: when it raises, the last
    game played raised that exception, every game before it returned, and
    nothing was printed; neither the sampler nor the two assertions on the
    way ever fail.  So a round returns whenever no game raises. *)
Theorem round_raises_only_play_errors (cpu_agent : Agent P)
    test_agents n w :
  (∀ e w', play_fair_round cpu_agent test_agents n w = (Raise e, w') →
     ∃ oks g r r',
       played_since w w' = oks ++ [(g, Raise e)] ∧ clean oks ∧
       play g r = (Raise e, r') ∧ printed_since w w' = []) ∧
  (play_total →
   ∀ e w', play_fair_round cpu_agent test_agents n w ≠ (Raise e, w')).
Proof.
  assert (Hr : ∀ e w',
     play_fair_round cpu_agent test_agents n w = (Raise e, w') →
     ∃ oks g r r',
       played_since w w' = oks ++ [(g, Raise e)] ∧ clean oks ∧
       play g r = (Raise e, r') ∧ printed_since w w' = []).
  { intros e w' E.
    apply play_fair_round_raise in E as (oks & g & Hp & Hc & Hgen & Hs).
    apply Forall_app in Hgen as [_ Hg].
    apply Forall_cons in Hg as [(r & r' & Hplay) _]. simpl in Hplay.
    exists oks, g, r, r'. unfold played_since, printed_since.
    rewrite Hp, Hs, drop_app_length, drop_all. done. }
  split; [done|]. intros Ht e w' E.
  destruct (Hr e w' E) as (_ & g & r & r' & _ & _ & Hplay & _).
  destruct (Ht g r) as (o & r2 & Ho). by rewrite Ho in Hplay.
Qed.

(** X10. A round that returns has played exactly the games the generator
    yields, each once and in the order yielded, [2 * num_matches] per
    opponent; none raised, nothing was printed, and the win counter maps
    each player to the number of these games it won. *)
Theorem round_plays_schedule (cpu_agent : Agent P) test_agents n w wc lr w' :
  play_fair_round cpu_agent test_agents n w = (Ok (wc, lr), w') →
  ∃ seqs,
    game_sequences cpu_agent test_agents n w = (Ok seqs, drawn (2 * n) w) ∧
    (played_since w w').*1 = concat seqs ∧
    length (played_since w w') = 2 * n * length test_agents ∧
    clean (played_since w w') ∧
    printed_since w w' = [] ∧
    ∀ p, wc !!! p = won_by p (played_since w w').
Proof.
  destruct (play_fair_round_unfold_oms cpu_agent test_agents n w)
    as (oms & Hlen & Hall & Eg & ->).
  intros E. eexists. split; [exact Eg|].
  apply bind_inv in E as ([wc1 lr1] & w1 & E1 & E2).
  apply games_loop_ok in E1 as (new & Hp & Hs & Hg & Hc & _ & Hw & _).
  apply bind_inv in E2 as ([] & w2 & E2 & [= <- <- <-]).
  unfold assert in E2. destruct (_ =? _); [|done]. injection E2 as <-.
  simpl in Hp, Hs, Hw. unfold played_since, printed_since.
  rewrite Hp, Hs, drop_app_length, drop_all.
  split_and!; [by rewrite Hg, round_games_concat| |done|done|].
  - by rewrite <-(length_fmap fst), Hg, length_round_games, Hlen.
  - intros p. by apply count_entry_total.
Qed.

Lemma lost_for_app s l1 l2 :
  lost_for s (l1 ++ l2) = lost_for s l1 + lost_for s l2.
Proof.
  induction l1 as [|[g [o|e]] l1 IH]; simpl; [done| |done].
  rewrite IH. lia.
Qed.

Lemma games_loop_reasons w0 games counts' w' :
  for_each games tally (∅, ∅) w0 = (Ok counts', w') →
  ∃ new, played w' = played w0 ++ new ∧
         (∀ s, counts'.2 !! s = count_entry (lost_for s new)) ∧
         total counts'.2 = length games.
Proof.
  apply (for_each_ind (λ pre counts w,
    ∃ new, played w = played w0 ++ new ∧
           (∀ s, counts.2 !! s = count_entry (lost_for s new)) ∧
           total counts.2 = length pre)).
  - exists []. split_and!; [by rewrite app_nil_r | done | done].
  - intros pre g counts w counts1 w1 (new & Hp & Hl & Ht) E.
    apply tally_ok in E as (o & r' & _ & -> & ->).
    exists (new ++ [(g, Ok o)]). simpl. split_and!.
    + by rewrite Hp, <-app_assoc.
    + intros s. rewrite lookup_incr, lost_for_app. simpl.
      rewrite (count_entry_total _ _ _ (Hl (loss_reason o))).
      case_decide as Hd.
      * subst s. by replace (lost_for (loss_reason o) new + (1 + 0))
          with (S (lost_for (loss_reason o) new)) by lia.
      * rewrite Hl. f_equal. lia.
    + rewrite total_incr, Ht, length_app. simpl. lia.
Qed.

Lemma play_fair_round_reasons (cpu_agent : Agent P)
    test_agents n w wc lr w' :
  play_fair_round cpu_agent test_agents n w = (Ok (wc, lr), w') →
  total lr = 2 * n * length test_agents ∧
  ∀ reason, lr !!! reason = lost_for reason (played_since w w').
Proof.
  destruct (play_fair_round_unfold cpu_agent test_agents n w)
    as (oms & Hlen & Hall & ->).
  intros E. apply bind_inv in E as ([wc1 lr1] & w1 & E1 & E2).
  apply games_loop_reasons in E1 as (new & Hp & Hl & Ht).
  apply bind_inv in E2 as ([] & w2 & E2 & [= <- <- <-]).
  unfold assert in E2. destruct (_ =? _); [|done]. injection E2 as <-.
  simpl in Hp, Hl, Ht. unfold played_since. rewrite Hp, drop_app_length.
  split.
  - by rewrite Ht, length_round_games, Hlen.
  - intros s. by apply count_entry_total.
Qed.

(** X11. In a round that returns, the loss-reason counter maps each reason
    to the number of games of the round lost for it, and its values add up
    to the number of games, [2 * num_matches * len(test_agents)]. *)
Theorem round_counts_loss_reasons (cpu_agent : Agent P)
    test_agents n w wc lr w' :
  play_fair_round cpu_agent test_agents n w = (Ok (wc, lr), w') →
  total lr = 2 * n * length test_agents ∧
  ∀ reason, lr !!! reason = lost_for reason (played_since w w').
Proof. apply play_fair_round_reasons. Qed.

(** X12. Under the contract of [play], in a round against test agents
    whose players are pairwise different and none the anchor's, every
    test agent has won at most its [2 * num_matches] games: the row
    [format_row_results] builds has one cell per test agent, with wins and
    losses that are not negative and add up to [2 * num_matches]. *)
Theorem row_losses_nonnegative (cpu_agent : Agent P) test_agents n w
    wc lr w' :
  play_contract →
  NoDup (player <$> test_agents) →
  (∀ t, t ∈ test_agents → player t ≠ player cpu_agent) →
  play_fair_round cpu_agent test_agents n w = (Ok (wc, lr), w') →
  ∃ cells,
    format_row_results test_agents wc (2 * n) = RowResults cells ∧
    length cells = length test_agents ∧
    Forall (λ c, c.1 ≤ 2 * n ∧ (0 ≤ c.2)%Z ∧
                 (Z.of_nat c.1 + c.2 = Z.of_nat (2 * n))%Z) cells.
Proof.
  intros Hc Hnd Hne E.
  apply play_fair_round_ok in E
    as (oms & Hlen & Hall & new & _ & _ & Hg & _ & Hgen & Hw & _).
  simpl in Hw. eexists. split; [done|]. split; [by rewrite length_fmap|].
  apply Forall_fmap, Forall_forall. intros t Ht. simpl.
  rewrite (count_entry_total _ _ _ (Hw (player t))).
  pose proof (won_by_round (player t) cpu_agent test_agents oms new
                Hc Hgen Hall Hg (Hne t Ht)) as Hle.
  pose proof (filter_player_NoDup (player t) test_agents Hnd).
  rewrite Hlen in Hle. split_and!; nia || lia.
Qed.

(** ** More on run_fair_tournament *)

Lemma update_insert_r `{Countable K} (c d : gmap K nat) k v :
  update c (<[k := v]> d) = <[k := c !!! k + v]> (update (delete k c) d).
Proof.
  apply map_eq. intros j. unfold update.
  destruct (decide (k = j)) as [<-|Hne].
  - rewrite lookup_union_with, !lookup_insert_eq, lookup_total_alt.
    by destruct (c !! k).
  - by rewrite lookup_insert_ne, !lookup_union_with, lookup_insert_ne,
      lookup_delete_ne.
Qed.

Lemma total_empty `{Countable K} : total (∅ : gmap K nat) = 0.
Proof. apply map_fold_empty. Qed.

Lemma total_delete_eq `{Countable K} (c : gmap K nat) k :
  total c = c !!! k + total (delete k c).
Proof.
  rewrite lookup_total_alt. destruct (c !! k) as [v|] eqn:Hk; simpl.
  - by apply total_delete.
  - by rewrite delete_id.
Qed.

Lemma total_update `{Countable K} (c d : gmap K nat) :
  total (update c d) = total c + total d.
Proof.
  revert c. induction d as [|k v d Hk Hfold IH] using map_first_key_ind;
    intros c.
  - unfold update. rewrite (right_id ∅ (union_with _)), total_empty. lia.
  - rewrite update_insert_r, total_insert, IH.
    + rewrite (total_insert k v d Hk), (total_delete_eq c k). lia.
    + unfold update. by rewrite lookup_union_with, lookup_delete_eq, Hk.
Qed.

Lemma total_delete_le `{Countable K} (c : gmap K nat) k :
  total (delete k c) ≤ total c.
Proof. rewrite (total_delete_eq c k). lia. Qed.

(** The totals of the two tournament-wide counters after the rounds. *)
Lemma rows_totals test_agents n rows w aw alr w' :
  for_each rows (fair_round_row test_agents n) (∅, ∅) w = (Ok (aw, alr), w') →
  total aw ≤ length rows * (2 * n * length test_agents) ∧
  total alr = length rows * (2 * n * length test_agents).
Proof.
  apply (for_each_ind (λ pre (all : gmap P nat * gmap string nat) _,
    total all.1 ≤ length pre * (2 * n * length test_agents) ∧
    total all.2 = length pre * (2 * n * length test_agents))).
  - simpl. by rewrite !total_empty.
  - intros pre [idx c] [aw1 alr1] w1 all2 w2 [Ha Hl] E.
    apply fair_round_row_ok in E as (wc & lr & w3 & E & _ & ->).
    pose proof (play_fair_round_reasons _ _ _ _ _ _ _ E) as [Hlr _].
    apply play_fair_round_ok in E
      as (oms & Hlen & Hall & new & _ & _ & _ & _ & _ & _ & Ht).
    simpl in *. rewrite length_round_games, Hlen in Ht by done.
    rewrite !total_update, length_app. simpl.
    pose proof (total_delete_le wc (player c)). lia.
Qed.

(** X13. The second assertion of [run_fair_tournament] never fails: after
    the rounds the tournament-wide wins add up to at most
    [total_num_games_per_test_agent * len(test_agents)], whatever [play]
    reports. *)
Theorem tournament_total_within_games (cpu_agents test_agents : list (Agent P))
    n w aw alr w' :
  for_each (imap pair cpu_agents) (fair_round_row test_agents n) (∅, ∅) w
  = (Ok (aw, alr), w') →
  (total aw <=? 2 * n * length cpu_agents * length test_agents) = true.
Proof.
  intros E. apply rows_totals in E as [Ha _]. rewrite length_imap in Ha.
  apply Nat.leb_le. lia.
Qed.

(** X14. When [run_fair_tournament] returns, the values of the loss-reason
    counter it returns add up to the number of games played,
    [2 * num_matches * len(test_agents) * len(cpu_agents)], and none of
    these games raised. *)
Theorem tournament_counts_every_loss (cpu_agents test_agents : list (Agent P))
    n w aw alr w' :
  run_fair_tournament cpu_agents test_agents n w = (Ok (aw, alr), w') →
  total alr = 2 * n * length test_agents * length cpu_agents ∧
  length (played_since w w')
  = 2 * n * length test_agents * length cpu_agents ∧
  clean (played_since w w').
Proof.
  intros E. pose proof E as E'.
  apply run_fair_tournament_ok in E' as (hist & Hpre & Hrec & Hp & _).
  rewrite run_fair_tournament_unfold in E.
  apply bind_inv in E as ([aw1 alr1] & w1 & E1 & E2).
  apply summary_ok in E2 as ([= <- <-] & _).
  apply rows_totals in E1 as [_ Hl]. rewrite length_imap in Hl.
  split_and!; [lia| |rewrite Hp; by eapply clean_bind].
  rewrite Hp, <-(hist_length hist cpu_agents Hpre). clear -Hrec.
  induction Hrec as [|r hist (oms & Hlen & Hall & Hg & _) _ IH]; [simpl; lia|].
  rewrite bind_cons, length_app, IH. simpl.
  rewrite <-(length_fmap fst (r_log r)), Hg, length_round_games, Hlen by done.
  lia.
Qed.

Lemma round_games_nil cpu_agent test_agents :
  round_games cpu_agent test_agents [] = [].
Proof.
  unfold round_games. induction test_agents as [|t ts IH]; [done|].
  by rewrite bind_cons, IH.
Qed.

(** Without games nobody is credited with a win. *)
Lemma no_games_no_wins p test_agents n (hist : list Round) :
  2 * n * length hist = 0 → Forall (round_record test_agents n) hist →
  sum_list_with (credit p) hist = 0.
Proof.
  intros Hz Hrec. induction Hrec as [|r hist Hr _ IH]; [done|].
  simpl in Hz. assert (n = 0) as -> by lia.
  destruct Hr as (oms & Hlen & _ & Hg & _ & _ & Hw).
  destruct oms; [|done]. rewrite round_games_nil in Hg.
  apply fmap_nil_inv in Hg. simpl. rewrite IH by lia.
  unfold credit. case_decide; [done|].
  rewrite (count_entry_total _ _ _ (Hw p)), Hg. done.
Qed.

Lemma summary_zero_division cpu_agents test_agents n aw alr w w' :
  summary cpu_agents test_agents n (aw, alr) w
  = (Raise ZeroDivisionError, w') →
  size aw = length test_agents ∧ test_agents ≠ [] ∧
  2 * n * length cpu_agents = 0.
Proof.
  unfold summary, print, assert, mbind, M_bind, mret, M_ret, raise.
  destruct (size aw =? length test_agents) eqn:Hsz; [|done].
  destruct (total aw <=? _); [|done].
  rewrite format_win_rates_res. case_decide as Hd; [|done].
  intros _. apply Nat.eqb_eq in Hsz. by destruct Hd.
Qed.

(** X15. The division in [format_win_rates] never divides by zero: when
    [run_fair_tournament] raises ZeroDivisionError, a game raised it. *)
Theorem tournament_never_divides_by_zero
    (cpu_agents test_agents : list (Agent P)) n w w' :
  run_fair_tournament cpu_agents test_agents n w
  = (Raise ZeroDivisionError, w') →
  ∃ oks g r r',
    played_since w w' = oks ++ [(g, Raise ZeroDivisionError)] ∧
    play g r = (Raise ZeroDivisionError, r').
Proof.
  rewrite run_fair_tournament_unfold. unfold mbind, M_bind.
  destruct (for_each _ _ _ _) as [[[aw alr]|e1] w1] eqn:E1.
  - intros E2. exfalso.
    apply rows_loop_ok in E1 as (hist & Hpre & Hrec & _ & _ & Haw).
    apply summary_zero_division in E2 as (Hsz & Hne & Hz).
    simpl in Haw. rewrite <-(hist_length hist cpu_agents Hpre) in Hz.
    assert (aw = ∅) as ->.
    { apply map_empty. intros p.
      by rewrite Haw, (no_games_no_wins p _ _ _ Hz Hrec). }
    rewrite map_size_empty in Hsz. by destruct test_agents.
  - intros [= -> <-].
    apply for_each_raise in E1
      as (pre & [idx c] & post & [aw alr] & w2 & _ & E1 & E2).
    apply rows_loop_ok in E1 as (hist & _ & _ & Hp & _).
    apply fair_round_row_raise, play_fair_round_raise in E2
      as (oks & g & Hp2 & _ & Hgen & _).
    apply Forall_app in Hgen as [_ Hg].
    apply Forall_cons in Hg as [(r & r' & Hplay) _]. simpl in Hplay, Hp2.
    exists ((hist ≫= r_log) ++ oks), g, r, r'. split; [|done].
    unfold played_since. rewrite Hp2, Hp. simpl.
    by rewrite <-!app_assoc, drop_app_length.
Qed.

Lemma play_fair_round_zero cpu_agent test_agents w :
  play_fair_round cpu_agent test_agents 0 w = (Ok (∅, ∅), w).
Proof.
  destruct (play_fair_round_unfold cpu_agent test_agents 0 w)
    as (oms & Hlen & _ & ->).
  destruct oms; [|done]. rewrite round_games_nil.
  change (2 * 0) with 0. rewrite drawn_0. simpl for_each.
  unfold mbind, M_bind, mret, M_ret. by rewrite total_empty.
Qed.

Lemma rows_loop_zero test_agents rows w :
  ∃ w2, for_each rows (fair_round_row test_agents 0) (∅, ∅) w
        = (Ok (∅, ∅), w2) ∧
        rng w2 = rng w ∧ played w2 = played w.
Proof.
  revert w. induction rows as [|[idx c] rows IH]; intros w; [by exists w|].
  set (w1 := with_line (format_row_results test_agents ∅ (2 * 0))
               (with_line (RowLabel (idx + 1) (name c)) w)).
  destruct (IH w1) as (w2 & E & Hr & Hp). exists w2.
  split; [|by rewrite Hr, Hp]. rewrite for_each_cons.
  rewrite (bind_ok _ _ w (∅, ∅) w1); [done|].
  unfold fair_round_row, mbind, M_bind, print.
  change (mkWorld (rng w) (stdout w ++ [RowLabel (idx + 1) (name c)])
            (played w)) with (with_line (RowLabel (idx + 1) (name c)) w).
  rewrite play_fair_round_zero.
  unfold update. rewrite delete_empty, !(left_id ∅ (union_with _)). done.
Qed.

Lemma summary_empty cpu_agents test_agents n w :
  summary cpu_agents test_agents n (∅, ∅) w
  = if decide (test_agents = [])
    then (Ok (∅, ∅),
          mkWorld (rng w)
            (stdout w ++ [DividingLine 22; WinRates []; LossResults None None])
            (played w))
    else (Raise AssertionError,
          with_line (make_dividing_line test_agents) w).
Proof.
  unfold summary, print, assert, mbind, M_bind, mret, M_ret, raise.
  rewrite map_size_empty. destruct test_agents as [|t ts]; [|done].
  simpl. rewrite total_empty. simpl. by rewrite <-!app_assoc.
Qed.

(** X16. A tournament without games -- [num_matches = 0] or no cpu agent
    -- plays nothing and draws nothing; it returns, two empty counters,
    only when there is no test agent either, and raises AssertionError
    otherwise, no test agent having won a game. *)
Theorem tournament_without_games (cpu_agents test_agents : list (Agent P))
    n w :
  n = 0 ∨ cpu_agents = [] →
  let r := run_fair_tournament cpu_agents test_agents n w in
  r.1 = (if decide (test_agents = []) then Ok (∅, ∅)
         else Raise AssertionError) ∧
  played r.2 = played w ∧ rng r.2 = rng w.
Proof.
  intros Hz r. subst r. rewrite run_fair_tournament_unfold.
  assert (∃ w2,
    for_each (imap pair cpu_agents) (fair_round_row test_agents n) (∅, ∅)
      (with_line (format_header test_agents) w) = (Ok (∅, ∅), w2) ∧
    rng w2 = rng w ∧ played w2 = played w) as (w2 & E & Hr & Hp).
  { destruct Hz as [->| ->]; [|by eexists].
    destruct (rows_loop_zero test_agents (imap pair cpu_agents)
                (with_line (format_header test_agents) w))
      as (w2 & E & Hr & Hp).
    by exists w2. }
  rewrite (bind_ok _ _ _ _ _ E), summary_empty.
  by destruct (decide (test_agents = [])).
Qed.

Lemma round_lines_zip test_agents n (hist : list Round) :
  hist ≫= round_lines test_agents n
  = concat (zip_with (λ (ic : nat * Agent P) row,
                        [RowLabel (ic.1 + 1) (name ic.2); RowResults row])
              ((λ r, (r_idx r, r_cpu r)) <$> hist)
              ((λ r, (λ agent,
                        (r_wins r !!! player agent,
                         (Z.of_nat (2 * n)
                          - Z.of_nat (r_wins r !!! player agent))%Z))
                     <$> test_agents) <$> hist)).
Proof.
  induction hist as [|r hist IH]; [done|].
  by rewrite bind_cons, !fmap_cons, IH.
Qed.

(** X17. When [run_fair_tournament] returns it has printed, in this
    order: the header with the test agents' names; for each cpu agent, in
    the order given and numbered from 1, its label and a row of results
    with one cell per test agent; the dividing line; the win rates; the
    loss results, which show the timeouts and forfeits of the returned
    counter and no other reason. *)
Theorem tournament_prints_table (cpu_agents test_agents : list (Agent P))
    n w aw alr w' :
  run_fair_tournament cpu_agents test_agents n w = (Ok (aw, alr), w') →
  ∃ rows : list (list (nat * Z)),
    length rows = length cpu_agents ∧
    Forall (λ row, length row = length test_agents) rows ∧
    printed_since w w'
    = Header (name <$> test_agents)
      :: concat (zip_with (λ (ic : nat * Agent P) row,
                             [RowLabel (ic.1 + 1) (name ic.2);
                              RowResults row])
                   (imap pair cpu_agents) rows)
      ++ [DividingLine (9 + 13 + 13 * length test_agents);
          WinRates (win_rates test_agents aw (2 * n * length cpu_agents));
          LossResults (alr !! "timeout"%string) (alr !! "forfeit"%string)].
Proof.
  intros E.
  apply run_fair_tournament_ok in E as (hist & Hpre & _ & _ & Hs & _).
  eexists. split_and!; [| |rewrite Hs, round_lines_zip, Hpre; done].
  - by rewrite length_fmap, (hist_length hist cpu_agents Hpre).
  - apply Forall_fmap, Forall_forall. intros r _. simpl.
    by rewrite length_fmap.
Qed.

(** ** The tests of tournament_fair_test.py *)

Lemma for_each_all_ok {A} (l : list A) (body : unit → A → M unit) w :
  (∀ x, x ∈ l → body tt x w = (Ok tt, w)) →
  for_each l body tt w = (Ok tt, w).
Proof.
  induction l as [|x l IH]; intros Hb; [done|].
  rewrite for_each_cons, (bind_ok _ _ _ _ _ (Hb x (list_elem_of_here _ _))).
  apply IH. intros y Hy. by apply Hb, list_elem_of_further.
Qed.

(** X18. [test_prepare_fair_match] passes whatever the random draws. *)
Theorem test_prepare_fair_match_passes (Player1 Player2 : P) wd :
  test_prepare_fair_match Player1 Player2 wd = (Ok tt, drawn 2 wd).
Proof.
  unfold test_prepare_fair_match.
  destruct (prepare_fair_match_omitted Player1 Player2 None 7 7 wd eq_refl)
    as (om & Hom & _ & E); [lia|].
  rewrite (bind_ok _ _ _ _ _ E).
  destruct om as [|m1 [|m2 [|]]]; try done. simpl.
  unfold assertTrue, assert, mbind, M_bind, mret, M_ret.
  by rewrite !bool_decide_eq_true_2.
Qed.

(** X19. [test_prepare_same_fair_matches] passes, whatever the random
    draws, when the fixture has at least one test agent and no other test
    agent has the player of the first one -- the test compares every
    sequence with the first only; with an empty list of test agents it
    raises IndexError. *)
Theorem test_prepare_same_fair_matches_passes (cpu_agent : Agent P)
    test_agents wd :
  (∀ t0 ts, test_agents = t0 :: ts →
     Forall (λ t, player t ≠ player t0) ts →
     test_prepare_same_fair_matches test_agents cpu_agent wd
     = (Ok tt, drawn 10 wd)) ∧
  (test_agents = [] →
   test_prepare_same_fair_matches test_agents cpu_agent wd
   = (Raise IndexError, drawn 10 wd)).
Proof.
  destruct (game_sequences_ok cpu_agent test_agents 5 wd)
    as (oms & Hlen & Hall & _ & E).
  unfold test_prepare_same_fair_matches. rewrite (bind_ok _ _ _ _ _ E).
  split.
  - intros t0 ts -> Hne.
    unfold assertTrue, assert. rewrite !length_fmap, Nat.eqb_refl.
    rewrite (bind_ok _ _ _ tt (drawn (2 * 5) wd) eq_refl).
    rewrite fmap_cons.
    rewrite (bind_ok _ _ _ (schedule cpu_agent t0 oms) (drawn (2 * 5) wd)
               eq_refl).
    rewrite (length_schedule _ _ _ Hall), Hlen. change (2 * 5 =? 2 * 5) with true.
    rewrite (bind_ok _ _ _ tt (drawn (2 * 5) wd) eq_refl).
    rewrite (bind_ok _ _ _ (schedule cpu_agent t0 oms) (drawn (2 * 5) wd)
               eq_refl).
    apply for_each_all_ok. intros i Hi%elem_of_seq.
    rewrite (bind_ok _ _ _ (schedule cpu_agent t0 oms) (drawn (2 * 5) wd)
               eq_refl).
    rewrite (length_schedule _ _ _ Hall), Hlen in Hi.
    assert (Hlt : i < length (schedule cpu_agent t0 oms))
      by (rewrite (length_schedule _ _ _ Hall), Hlen; lia).
    apply lookup_lt_is_Some in Hlt as [g1 Hg1].
    rewrite (bind_ok _ _ _ g1 (drawn (2 * 5) wd)); [|unfold index; by rewrite Hg1].
    apply for_each_all_ok. intros s Hs. simpl in Hs. rewrite drop_0 in Hs.
    apply list_elem_of_fmap in Hs as (t & -> & Ht).
    assert (Hlt : i < length (schedule cpu_agent t oms))
      by (rewrite (length_schedule _ _ _ Hall), Hlen; lia).
    apply lookup_lt_is_Some in Hlt as [g2 Hg2].
    rewrite (bind_ok _ _ _ g2 (drawn (2 * 5) wd)); [|unfold index; by rewrite Hg2].
    apply schedule_lookup_inv in Hg1 as (m1 & m2 & Eo & O1 & W1 & H1 & P1);
      [|done].
    apply schedule_lookup_inv in Hg2 as (m1' & m2' & Eo' & O2 & W2 & H2 & P2);
      [|done].
    rewrite Eo in Eo'. injection Eo' as <- <-.
    unfold assertTrue, assertFalse, assert, mbind, M_bind, mret, M_ret.
    rewrite bool_decide_eq_true_2 by (apply blank_spaces_geometry; congruence).
    rewrite bool_decide_eq_false_2; [done|].
    rewrite P1, P2. intros Heq%pair_ids_inj.
    eapply Forall_forall in Hne; [|done]. by apply Hne.
  - intros ->. done.
Qed.

End Tournament.


(** ** The theorems at work on concrete runs *)

Lemma demo_play_total : play_total (Collaborators0 := demo_game).
Proof. intros g r. by eexists _, _. Qed.

Lemma demo_play_contract : play_contract (Collaborators0 := demo_game).
Proof. intros g r o r' [= <- <-]. by left. Qed.

Lemma demo_agents_apart (c t : Agent nat) :
  c ∈ [anchor_x; anchor_y] → t ∈ [test_a; test_b; test_c] →
  player c ≠ player t.
Proof.
  intros Hc Ht.
  repeat (apply elem_of_cons in Hc as [->|Hc]);
    [..|by apply elem_of_nil in Hc];
    repeat (apply elem_of_cons in Ht as [->|Ht]);
    try done; by apply elem_of_nil in Ht.
Qed.

Lemma game_sequences_shared_opening_witness :
  ∃ seqs wd',
    game_sequences (Collaborators0 := demo_game) anchor_x
      [test_a; test_b; test_c] 2 demo_world = (Ok seqs, wd') ∧
    shared_opening_invariant seqs 3 2.
Proof.
  apply (game_sequences_shared_opening (Collaborators0 := demo_game)
           anchor_x [test_a; test_b; test_c] 2 demo_world).
  apply (bool_decide_unpack _). vm_compute. exact I.
Defined.

(** C1 as stated fails when an opponent is listed twice: the games at
    position 0 of the two sequences have the same pair of players. *)
Lemma duplicate_opponent_counterexample :
  ¬ ∃ seqs wd',
      game_sequences (Collaborators0 := demo_game) anchor_x
        [test_a; test_a] 1 demo_world = (Ok seqs, wd') ∧
      shared_opening_invariant seqs 2 1.
Proof.
  intros (seqs & wd' & E & _ & _ & Hinv).
  destruct (game_sequences_ok (Collaborators0 := demo_game) anchor_x
              [test_a; test_a] 1 demo_world) as (oms & Hlen & Hall & _ & E').
  rewrite E' in E. injection E as <- <-.
  destruct oms as [|om [|]]; try done.
  apply Forall_cons in Hall as [Hom _].
  destruct om as [|m1 [|m2 [|]]]; try done.
  by destruct (Hinv 0 0 1 _ _ _ _ eq_refl eq_refl eq_refl eq_refl) as [_ Hne];
    apply Hne.
Qed.

Lemma prepare_fair_match_fair_witness :
  ∃ b0 b1,
    prepare_fair_match (Collaborators0 := demo_game) 1 2
      (Some [(1, 2); (3, 4)]) 7 7 demo_world
    = (Ok ([b0; b1], [(1, 2); (3, 4)]), demo_world) ∧
    b0 = mkBoard 7 7 1 2 [(3, 4); (1, 2)] (Some (1, 2)) (Some (3, 4)) ∧
    b1 = mkBoard 7 7 2 1 [(3, 4); (1, 2)] (Some (1, 2)) (Some (3, 4)) ∧
    get_blank_spaces b0 = get_blank_spaces b1 ∧
    length (get_blank_spaces b0) = 47.
Proof.
  destruct (prepare_fair_match_fair (Collaborators0 := demo_game) 1 2
              (Some [(1, 2); (3, 4)]) 7 7 demo_world)
    as (m1 & m2 & b0 & b1 & wd' & Hsrc & _ & _ & _ & E & _ & E0 & E1 & Hb & _).
  { vm_compute. reflexivity. }
  simpl in Hsrc. destruct Hsrc as [Ho ->]. injection Ho as <- <-.
  exists b0, b1. split_and!; [exact E | exact E0 | exact E1 | exact Hb |].
  rewrite E0. vm_compute. reflexivity.
Defined.

Lemma play_fair_round_conserves_count_witness :
  ∃ wc lr w',
    play_fair_round (Collaborators0 := demo_game) anchor_x
      [test_a; test_b; test_c] 2 demo_world = (Ok (wc, lr), w') ∧
    total wc = 2 * 2 * 3 ∧
    length (played_since demo_world w') = 2 * 2 * 3 ∧
    ∀ p, wc !!! p = won_by p (played_since demo_world w').
Proof.
  pose proof (play_fair_round_conserves_count (Collaborators0 := demo_game)
                anchor_x [test_a; test_b; test_c] 2 demo_world) as [Hsum Hret].
  destruct (Hret demo_play_total) as (wc & lr & w' & E).
  destruct (Hsum wc lr w' E) as (Ht & _ & Hn & _ & _ & Hw & _).
  exists wc, lr, w'. split_and!; [exact E | exact Ht | exact Hn | exact Hw].
Defined.

Lemma prepare_fair_match_keeps_opening_witness :
  (prepare_fair_match (Collaborators0 := demo_game) 1 2
     (Some [(1, 2); (3, 4)]) 7 7 demo_world).2 = demo_world.
Proof.
  apply (prepare_fair_match_keeps_opening (Collaborators0 := demo_game) 1 2
           [(1, 2); (3, 4)] 7 7 demo_world).
  discriminate.
Defined.

Lemma tournament_win_bound_witness :
  ∃ aw alr w',
    run_fair_tournament (Collaborators0 := demo_game) [anchor_x; anchor_y]
      [test_a; test_b; test_c] 2 demo_world = (Ok (aw, alr), w') ∧
    ∀ p, aw !!! p ≤ 2 * 2 * 2.
Proof.
  destruct (run_fair_tournament (Collaborators0 := demo_game)
              [anchor_x; anchor_y] [test_a; test_b; test_c] 2 demo_world)
    as [[[aw alr]|e] w'] eqn:E.
  - exists aw, alr, w'. split; [reflexivity|].
    apply (tournament_win_bound (Collaborators0 := demo_game)
             [anchor_x; anchor_y] [test_a; test_b; test_c] 2 demo_world
             aw alr w' demo_play_contract E).
  - vm_compute in E. discriminate E.
Defined.

(** C7 as stated fails when an anchor's player is also a test agent's:
    the wins it scores as a test agent, in the round of another anchor,
    stay in the tournament-wide counter. *)
Lemma shared_player_counterexample :
  play_contract (Collaborators0 := demo_game) ∧
  test_a ∈ [anchor_x; test_a] ∧
  ∃ aw alr w',
    run_fair_tournament (Collaborators0 := demo_game) [anchor_x; test_a]
      [test_a] 1 demo_world = (Ok (aw, alr), w') ∧
    aw !! player test_a = Some 1.
Proof.
  split; [exact demo_play_contract|].
  split; [apply list_elem_of_further, list_elem_of_here|].
  eexists _, _, _. split; vm_compute; reflexivity.
Qed.

Lemma anchors_never_counted_witness :
  ∃ aw alr w',
    for_each (take 2 (imap pair [anchor_x; anchor_y]))
      (fair_round_row (Collaborators0 := demo_game)
         [test_a; test_b; test_c] 2) (∅, ∅) demo_world
    = (Ok (aw, alr), w') ∧
    (∀ c, c ∈ [anchor_x; anchor_y] → aw !! player c = None) ∧
    aw !!! player test_b
    = sum_list_with (λ row, (row !!! 1).1)
        (row_results (printed_since demo_world w')).
Proof.
  destruct (for_each (take 2 (imap pair [anchor_x; anchor_y]))
              (fair_round_row (Collaborators0 := demo_game)
                 [test_a; test_b; test_c] 2) (∅, ∅) demo_world)
    as [[[aw alr]|e] w'] eqn:E.
  - exists aw, alr, w'. split; [reflexivity|].
    destruct (anchors_never_counted (Collaborators0 := demo_game)
                [anchor_x; anchor_y] [test_a; test_b; test_c] 2 demo_world
                2 aw alr w' demo_play_contract demo_agents_apart E)
      as (Hanchor & _ & Hsum).
    split; [exact Hanchor | exact (Hsum 1 test_b eq_refl)].
  - vm_compute in E. discriminate E.
Defined.

(** C8 as stated fails when the game that raises is not in the first
    round: the results of the rounds before it are already printed. *)
Lemma printed_rows_counterexample :
  let r := run_fair_tournament (Collaborators0 := faulty_game 11)
             [anchor_x; anchor_y] [test_a; test_b; test_c] 1 demo_world in
  r.1 = Raise (PlayError "search") ∧
  (played_since demo_world r.2).*2 !! 6 = Some (Raise (PlayError "search")) ∧
  printed_since demo_world r.2
  = [Header ["a"; "b"; "c"]%string; RowLabel 1 "x";
     RowResults [(1, 1%Z); (1, 1%Z); (1, 1%Z)]; RowLabel 2 "y"] ∧
  Exists (λ l, reports_counts l = true) (printed_since demo_world r.2).
Proof.
  split_and!; [vm_compute; reflexivity..|].
  apply Exists_exists. exists (RowResults [(1, 1%Z); (1, 1%Z); (1, 1%Z)]).
  split; [|done]. vm_compute. do 2 apply list_elem_of_further.
  apply list_elem_of_here.
Qed.

Lemma play_failure_aborts_witness :
  ∃ g e,
    let r := run_fair_tournament (Collaborators0 := faulty_game 11)
               [anchor_x; anchor_y] [test_a; test_b; test_c] 1 demo_world in
    played_since demo_world r.2 !! 6 = Some (g, Raise e) ∧
    r.1 = Raise e ∧ length (played_since demo_world r.2) = 7 ∧
    ∃ (hist : list (Round (P := nat))) (c : Agent nat),
      printed_since demo_world r.2
      = format_header [test_a; test_b; test_c]
        :: (hist ≫= round_lines [test_a; test_b; test_c] 1)
        ++ [RowLabel (length hist + 1) (name c)].
Proof.
  eexists _, _. intros r.
  assert (Hi : played_since demo_world r.2 !! 6 = Some (_, Raise _))
    by (vm_compute; reflexivity).
  split; [exact Hi|].
  destruct (proj2 (play_failure_aborts (Collaborators0 := faulty_game 11))
              [anchor_x; anchor_y] [test_a; test_b; test_c] 1 demo_world 6 _ _
              Hi)
    as (Hr & Hn & _ & (hist & oks & c & post & _ & _ & _ & _ & Hs) & _).
  split_and!; [exact Hr | exact Hn |]. exists hist, c. exact Hs.
Defined.

Lemma all_test_agents_must_win_witness :
  ∃ aw alr w',
    run_fair_tournament (Collaborators0 := demo_game) [anchor_x; anchor_y]
      [test_a; test_b; test_c] 2 demo_world = (Ok (aw, alr), w') ∧
    size aw = 3 ∧ NoDup (player <$> [test_a; test_b; test_c]) ∧
    ∀ t, t ∈ [test_a; test_b; test_c] →
      0 < aw !!! player t ∧
      0 < won_by (player t) (played_since demo_world w').
Proof.
  pose proof (all_test_agents_must_win (Collaborators0 := demo_game)
                [anchor_x; anchor_y] [test_a; test_b; test_c] 2 demo_world
                demo_play_contract) as [Hok _].
  destruct (run_fair_tournament (Collaborators0 := demo_game)
              [anchor_x; anchor_y] [test_a; test_b; test_c] 2 demo_world)
    as [[[aw alr]|e] w'] eqn:E.
  - exists aw, alr, w'. split; [reflexivity|]. exact (Hok aw alr eq_refl).
  - vm_compute in E. discriminate E.
Defined.

(** ** The width of the table *)

Lemma length_append (s1 s2 : string) :
  String.length (s1 +:+ s2) = String.length s1 + String.length s2.
Proof. induction s1 as [|c s1 IH]; simpl; [done | by rewrite IH]. Qed.

Lemma length_times (s : string) n :
  String.length (Text.times s n) = n * String.length s.
Proof.
  induction n as [|n IH]; [done|]. simpl. by rewrite length_append, IH.
Qed.

Lemma length_center w (s : string) :
  String.length s ≤ w → String.length (Text.center w s) = w.
Proof.
  intros Hs. unfold Text.center.
  rewrite !length_append, !length_times.
  change (String.length " ") with 1.
  assert ((w - String.length s) / 2 ≤ w - String.length s)
    by (apply Nat.Div0.div_le_upper_bound; lia).
  lia.
Qed.

Lemma length_concat (sep : string) (l : list string) c :
  Forall (λ x, String.length x = c) l →
  String.length (String.concat sep l)
  = length l * c + (length l - 1) * String.length sep.
Proof.
  induction 1 as [|x l Hx Hl IH]; [done|].
  destruct l as [|y l]; [simpl; lia|].
  change (String.concat sep (x :: y :: l))
    with (x +:+ sep +:+ String.concat sep (y :: l)).
  rewrite !length_append, IH, Hx. simpl. lia.
Qed.

Lemma length_dividing_line {P} (test_agents : list (Agent P)) :
  String.length (Text.make_dividing_line test_agents)
  = 22 + 13 * length test_agents.
Proof. unfold Text.make_dividing_line. rewrite length_times. simpl. lia. Qed.

(** X20. A row of the table -- the label of the round followed by
    [format_row_results] -- is exactly as wide as the dividing line, when
    there is at least one test agent, the cpu agent's name has at most 13
    characters, the row number at most 9 and every count of wins or losses
    at most 5. *)
Theorem row_as_wide_as_dividing_line `{Countable P}
    (test_agents : list (Agent P)) (win_counts : gmap P nat)
    (num_games_each idx : nat) (cpu_agent : Agent P) :
  test_agents ≠ [] →
  String.length (name cpu_agent) ≤ 13 →
  String.length (pretty (idx + 1)) ≤ 9 →
  Forall (λ t,
    String.length (pretty (win_counts !!! player t)) ≤ 5 ∧
    String.length (pretty (Z.of_nat num_games_each
                           - Z.of_nat (win_counts !!! player t))%Z) ≤ 5)
    test_agents →
  String.length (Text.row_label idx cpu_agent
                 +:+ Text.format_row_results test_agents win_counts
                       num_games_each)
  = String.length (Text.make_dividing_line test_agents).
Proof.
  intros Hne Hname Hidx Hcells.
  rewrite length_dividing_line. unfold Text.row_label, Text.format_row_results.
  rewrite !length_append, !length_center by done.
  rewrite (length_concat _ _ 12).
  - rewrite length_fmap. destruct test_agents; [done|]. simpl. lia.
  - apply Forall_fmap. eapply Forall_impl; [exact Hcells|].
    intros t [Hw Hl]. simpl.
    by rewrite !length_append, !length_center.
Qed.

(** X21. The header [format_header] builds is its six lines joined by
    newlines; when there is at least one test agent and every test
    agent's name has at most 13 characters, the line of column titles
    (after its leading newline) and the line of Won | Lost titles are
    exactly as wide as the dividing line. *)
Theorem header_as_wide_as_dividing_line {P} (test_agents : list (Agent P)) :
  test_agents ≠ [] →
  Forall (λ t, String.length (name t) ≤ 13) test_agents →
  ∃ titles won_lost,
    Text.format_header test_agents
    = String.concat Text.nl
        [Text.DESCRIPTION;
         Text.center 74 "*************************";
         Text.center 74 "Playing Matches";
         Text.center 74 "*************************";
         Text.nl +:+ titles; won_lost] ∧
    String.length titles
    = String.length (Text.make_dividing_line test_agents) ∧
    String.length won_lost
    = String.length (Text.make_dividing_line test_agents).
Proof.
  intros Hne Hnames.
  exists ((Text.center 9 "Match #" +:+ Text.center 13 "Opponent") +:+
          String.concat "" ((λ x, Text.center 13 (name x)) <$> test_agents)),
         ((Text.center 9 "" +:+ Text.center 13 "" +:+ " ") +:+
          String.concat " "
            ((λ _, Text.center 5 "Won" +:+ "| " +:+ Text.center 5 "Lost")
               <$> test_agents)).
  split_and!.
  - reflexivity.
  - rewrite length_dividing_line, !length_append.
    rewrite (length_concat _ _ 13).
    + rewrite length_fmap. simpl. lia.
    + apply Forall_fmap. eapply Forall_impl; [exact Hnames|].
      intros t Ht. simpl. by apply length_center.
  - rewrite length_dividing_line, !length_append.
    rewrite (length_concat _ _ 12).
    + rewrite length_fmap. destruct test_agents; [done|]. simpl. lia.
    + apply Forall_fmap, Forall_forall. by intros t _.
Qed.

(** X22. The text [format_loss_results] builds is empty exactly when the
    counter has neither the key "timeout" nor the key "forfeit": any other
    loss reason is counted and never reported. *)
Theorem loss_results_text_empty (reasons : gmap string nat) :
  Text.format_loss_results reasons = ""%string ↔
  reasons !! "timeout"%string = None ∧ reasons !! "forfeit"%string = None.
Proof.
  unfold Text.format_loss_results.
  destruct (decide (is_Some (reasons !! "timeout"%string))) as [Ht|Ht];
    destruct (decide (is_Some (reasons !! "forfeit"%string))) as [Hf|Hf];
    simpl; split; try done.
  - intros [Hn _]. rewrite Hn in Ht. by destruct Ht.
  - intros [Hn _]. rewrite Hn in Ht. by destruct Ht.
  - intros [_ Hn]. rewrite Hn in Hf. by destruct Hf.
  - intros _. by split; apply eq_None_not_Some.
Qed.

(** ** More concrete runs *)

Lemma sampler_two_distinct_cells_witness :
  ∃ r1 c1 r2 c2,
    get_random_starting_positions (Collaborators0 := demo_game) 7 7 demo_world
    = (Ok [(r1, c1); (r2, c2)], drawn 2 demo_world) ∧
    (r1, c1) ≠ (r2, c2).
Proof.
  destruct (sampler_two_distinct_cells (Collaborators0 := demo_game) 7 7 demo_world)
    as (r1 & c1 & r2 & c2 & E & _ & _ & _ & _ & Hne & _); [lia|].
  by exists r1, c1, r2, c2.
Defined.

Lemma sampler_degenerate_board_witness :
  get_random_starting_positions (Collaborators0 := demo_game) 1 1 demo_world
  = (Raise IndexError, drawn 1 demo_world).
Proof.
  apply (sampler_degenerate_board (Collaborators0 := demo_game) 1 1 demo_world). lia.
Defined.

Lemma sampler_reaches_every_pair_witness :
  ∃ tp, get_random_starting_positions (Collaborators0 := demo_game) 7 7
          (mkWorld (mkRng tp 0) [] [])
        = (Ok [(1, 2); (3, 4)], mkWorld (mkRng tp 2) [] []).
Proof.
  apply (sampler_reaches_every_pair (Collaborators0 := demo_game) 7 7 (1, 2) (3, 4) [] []).
  - apply elem_of_cells. lia.
  - apply elem_of_cells. lia.
  - discriminate.
Defined.

Lemma prepare_fair_match_any_opening_witness :
  ∃ b0 b1 wd',
    prepare_fair_match (Collaborators0 := demo_game) 1 2
      (Some [(0, 0); (3, 3); (1, 2)]) 7 7 demo_world
    = (Ok ([b0; b1], [(0, 0); (3, 3); (1, 2)]), wd') ∧
    active_player b0 = 2 ∧ active_player b0 = inactive_player b1.
Proof.
  destruct (prepare_fair_match (Collaborators0 := demo_game) 1 2
              (Some [(0, 0); (3, 3); (1, 2)]) 7 7 demo_world)
    as [[[bs om]|e] wd'] eqn:E.
  - destruct (prepare_fair_match_any_opening (Collaborators0 := demo_game)
                1 2 _ 7 7 demo_world bs om wd' E)
      as (b0 & b1 & -> & _ & _ & _ & _ & _ & _ & _ & Hs & _ & Ha & Ho).
    injection Ho as <-. by exists b0, b1, wd'.
  - vm_compute in E. discriminate E.
Defined.

Lemma round_raises_only_play_errors_witness :
  ∃ e w' oks g,
    play_fair_round (Collaborators0 := faulty_game 2) anchor_x
      [test_a; test_b] 1 demo_world = (Raise e, w') ∧
    played_since demo_world w' = oks ++ [(g, Raise e)] ∧ clean oks.
Proof.
  destruct (play_fair_round (Collaborators0 := faulty_game 2) anchor_x
              [test_a; test_b] 1 demo_world) as [[r|e] w'] eqn:E.
  - vm_compute in E. discriminate E.
  - destruct (proj1 (round_raises_only_play_errors
                       (Collaborators0 := faulty_game 2) anchor_x
                       [test_a; test_b] 1 demo_world) e w' E)
      as (oks & g & _ & _ & Hp & Hc & _).
    by exists e, w', oks, g.
Defined.

Lemma round_plays_schedule_witness :
  ∃ wc lr w' seqs,
    play_fair_round (Collaborators0 := demo_game) anchor_x
      [test_a; test_b] 1 demo_world = (Ok (wc, lr), w') ∧
    game_sequences (Collaborators0 := demo_game) anchor_x
      [test_a; test_b] 1 demo_world = (Ok seqs, drawn 2 demo_world) ∧
    (played_since demo_world w').*1 = concat seqs.
Proof.
  destruct (play_fair_round (Collaborators0 := demo_game) anchor_x
              [test_a; test_b] 1 demo_world) as [[[wc lr]|e] w'] eqn:E.
  - destruct (round_plays_schedule (Collaborators0 := demo_game) anchor_x
                [test_a; test_b] 1 demo_world wc lr w' E)
      as (seqs & Eg & Hp & _).
    by exists wc, lr, w', seqs.
  - vm_compute in E. discriminate E.
Defined.

Lemma round_counts_loss_reasons_witness :
  ∃ wc lr w',
    play_fair_round (Collaborators0 := demo_game) anchor_x
      [test_a; test_b] 1 demo_world = (Ok (wc, lr), w') ∧
    total lr = 2 * 1 * 2.
Proof.
  destruct (play_fair_round (Collaborators0 := demo_game) anchor_x
              [test_a; test_b] 1 demo_world) as [[[wc lr]|e] w'] eqn:E.
  - exists wc, lr, w'. split; [done|].
    apply (round_counts_loss_reasons (Collaborators0 := demo_game) anchor_x
             [test_a; test_b] 1 demo_world wc lr w' E).
  - vm_compute in E. discriminate E.
Defined.

Lemma row_losses_nonnegative_witness :
  ∃ wc lr w' cells,
    play_fair_round (Collaborators0 := demo_game) anchor_x
      [test_a; test_b] 1 demo_world = (Ok (wc, lr), w') ∧
    format_row_results [test_a; test_b] wc (2 * 1) = RowResults cells ∧
    Forall (λ c, c.1 ≤ 2 * 1 ∧ (0 ≤ c.2)%Z ∧
                 (Z.of_nat c.1 + c.2 = Z.of_nat (2 * 1))%Z) cells.
Proof.
  destruct (play_fair_round (Collaborators0 := demo_game) anchor_x
              [test_a; test_b] 1 demo_world) as [[[wc lr]|e] w'] eqn:E.
  - destruct (row_losses_nonnegative (Collaborators0 := demo_game) anchor_x
                [test_a; test_b] 1 demo_world wc lr w' demo_play_contract)
      as (cells & Hf & _ & Hall); [| |exact E|].
    + apply (bool_decide_unpack _). vm_compute. exact I.
    + intros t Ht.
      repeat (apply elem_of_cons in Ht as [->|Ht]); try done.
      by apply elem_of_nil in Ht.
    + by exists wc, lr, w', cells.
  - vm_compute in E. discriminate E.
Defined.

Lemma tournament_total_within_games_witness :
  ∃ aw alr w',
    for_each (imap pair [anchor_x; anchor_y])
      (fair_round_row (Collaborators0 := demo_game) [test_a; test_b] 1)
      (∅, ∅) demo_world = (Ok (aw, alr), w') ∧
    (total aw <=? 2 * 1 * 2 * 2) = true.
Proof.
  destruct (for_each (imap pair [anchor_x; anchor_y])
              (fair_round_row (Collaborators0 := demo_game)
                 [test_a; test_b] 1) (∅, ∅) demo_world)
    as [[[aw alr]|e] w'] eqn:E.
  - exists aw, alr, w'. split; [done|].
    apply (tournament_total_within_games (Collaborators0 := demo_game)
             [anchor_x; anchor_y] [test_a; test_b] 1 demo_world aw alr w' E).
  - vm_compute in E. discriminate E.
Defined.

Lemma tournament_counts_every_loss_witness :
  ∃ aw alr w',
    run_fair_tournament (Collaborators0 := demo_game) [anchor_x; anchor_y]
      [test_a; test_b] 1 demo_world = (Ok (aw, alr), w') ∧
    total alr = 2 * 1 * 2 * 2 ∧
    length (played_since demo_world w') = 2 * 1 * 2 * 2.
Proof.
  destruct (run_fair_tournament (Collaborators0 := demo_game)
              [anchor_x; anchor_y] [test_a; test_b] 1 demo_world)
    as [[[aw alr]|e] w'] eqn:E.
  - exists aw, alr, w'. split; [done|].
    destruct (tournament_counts_every_loss (Collaborators0 := demo_game)
                [anchor_x; anchor_y] [test_a; test_b] 1 demo_world
                aw alr w' E) as (Ht & Hl & _).
    by split.
  - vm_compute in E. discriminate E.
Defined.

Lemma tournament_never_divides_by_zero_witness :
  ∃ w' oks g,
    run_fair_tournament (Collaborators0 := raising_game ZeroDivisionError)
      [anchor_x] [test_a] 1 demo_world = (Raise ZeroDivisionError, w') ∧
    played_since demo_world w' = oks ++ [(g, Raise ZeroDivisionError)].
Proof.
  destruct (run_fair_tournament
              (Collaborators0 := raising_game ZeroDivisionError)
              [anchor_x] [test_a] 1 demo_world) as [[r|e] w'] eqn:E.
  - vm_compute in E. discriminate E.
  - assert (e = ZeroDivisionError) as ->.
    { vm_compute in E. by injection E as <- _. }
    destruct (tournament_never_divides_by_zero
                (Collaborators0 := raising_game ZeroDivisionError)
                [anchor_x] [test_a] 1 demo_world w' E)
      as (oks & g & _ & _ & Hp & _).
    by exists w', oks, g.
Defined.

Lemma tournament_without_games_witness :
  (run_fair_tournament (Collaborators0 := demo_game) [anchor_x; anchor_y]
     [test_a] 0 demo_world).1 = Raise AssertionError.
Proof.
  apply (tournament_without_games (Collaborators0 := demo_game)
           [anchor_x; anchor_y] [test_a] 0 demo_world).
  by left.
Defined.

Lemma tournament_prints_table_witness :
  ∃ aw alr w' rows,
    run_fair_tournament (Collaborators0 := demo_game) [anchor_x; anchor_y]
      [test_a; test_b] 1 demo_world = (Ok (aw, alr), w') ∧
    length rows = length [anchor_x; anchor_y] ∧
    printed_since demo_world w'
    = Header (name <$> [test_a; test_b])
      :: concat (zip_with (λ (ic : nat * Agent nat) row,
                             [RowLabel (ic.1 + 1) (name ic.2);
                              RowResults row])
                   (imap pair [anchor_x; anchor_y]) rows)
      ++ [DividingLine (9 + 13 + 13 * length [test_a; test_b]);
          WinRates (win_rates [test_a; test_b] aw
                      (2 * 1 * length [anchor_x; anchor_y]));
          LossResults (alr !! "timeout"%string) (alr !! "forfeit"%string)].
Proof.
  destruct (run_fair_tournament (Collaborators0 := demo_game)
              [anchor_x; anchor_y] [test_a; test_b] 1 demo_world)
    as [[[aw alr]|e] w'] eqn:E.
  - destruct (tournament_prints_table (Collaborators0 := demo_game)
                [anchor_x; anchor_y] [test_a; test_b] 1 demo_world
                aw alr w' E) as (rows & Hl & _ & Hp).
    exists aw, alr, w', rows.
    split; [reflexivity|]. split; [exact Hl | exact Hp].
  - vm_compute in E. discriminate E.
Defined.

Lemma test_prepare_same_fair_matches_passes_witness :
  test_prepare_same_fair_matches (Collaborators0 := demo_game)
    [test_a; test_b; test_c] anchor_x demo_world
  = (Ok tt, drawn 10 demo_world).
Proof.
  apply (proj1 (test_prepare_same_fair_matches_passes
                  (Collaborators0 := demo_game) anchor_x
                  [test_a; test_b; test_c] demo_world) test_a
           [test_b; test_c] eq_refl).
  by repeat constructor.
Defined.

Lemma row_as_wide_as_dividing_line_witness :
  String.length
    (Text.row_label 0 anchor_x
     +:+ Text.format_row_results [test_a; test_b; test_c]
           (<[1 := 7]> (<[2 := 12]> ∅)) 10)
  = String.length (Text.make_dividing_line [test_a; test_b; test_c]).
Proof.
  apply (row_as_wide_as_dividing_line [test_a; test_b; test_c]
           (<[1 := 7]> (<[2 := 12]> ∅)) 10 0 anchor_x).
  - discriminate.
  - vm_compute. lia.
  - vm_compute. lia.
  - repeat constructor; vm_compute; lia.
Defined.

Lemma header_as_wide_as_dividing_line_witness :
  ∃ titles won_lost,
    Text.format_header [test_a; test_b; test_c]
    = String.concat Text.nl
        [Text.DESCRIPTION;
         Text.center 74 "*************************";
         Text.center 74 "Playing Matches";
         Text.center 74 "*************************";
         Text.nl +:+ titles; won_lost] ∧
    String.length titles = 61 ∧ String.length won_lost = 61.
Proof.
  destruct (header_as_wide_as_dividing_line [test_a; test_b; test_c])
    as (titles & won_lost & E & H1 & H2).
  - discriminate.
  - repeat constructor; vm_compute; lia.
  - by exists titles, won_lost.
Defined.
